(** * fastproxy: body copier, request objects and connection dispatch

    A shallow embedding of the Go package [proxy] (files [proxy/http.go],
    [proxy/proxy.go] and the CONNECT handler) together with the properties
    of the body copier, of the [Request]/[Response] objects and of the
    connection server that the design document states about them.

    Go's [bufio.Reader], [bufio.Writer] and [net.Conn] are library objects;
    they are modelled here by small state records whose operations follow
    the documented behaviour of the Go methods the package calls. *)

From Stdlib Require Import String Ascii Strings.Byte DecimalString.
From Stdlib Require Import List ZArith Lia Bool Arith.
Import ListNotations.

Set Implicit Arguments.

Local Open Scope list_scope.

(** ** Bytes *)

Definition bytes := list Byte.byte.

(** A Go string or byte-slice literal. *)
Definition lit (s : string) : bytes := list_byte_of_string s.

Definition CR : Byte.byte := Byte.x0d.
Definition LF : Byte.byte := Byte.x0a.

(** [var strCRLF = []byte("\r\n")] *)
Definition strCRLF : bytes := [CR; LF].

(** ** Go [error] values built by the package *)

Inductive error : Type :=
| EOF                                   (* io.EOF *)
| ErrUnexpectedEOF                      (* io.ErrUnexpectedEOF *)
| ErrShortWrite                         (* io.ErrShortWrite *)
| ErrNoProgress                         (* io.ErrNoProgress *)
| ErrIO                                 (* failure of the underlying connection *)
| ErrNoHostProvided                     (* header.ErrNoHostProvided *)
| ErrEmptyHexNum                        (* chunk size with no hex digit *)
| ErrNew (msg : string)                 (* errors.New(msg) *)
| Errorf (msg : string) (cause : error) (* fmt.Errorf(msg + "%s", cause) *)
| ErrUnexpectedChar (got expected : Byte.byte).
                                        (* fmt.Errorf("unexpected char %q ... Expected %q") *)

(** What a Go function call can do: return its [error] result ([None] is
    [nil]), or panic.  [OutOfFuel] only arises in the fuelled loops below
    and is shown to be unreachable once the fuel covers the input. *)
Inductive outcome : Type :=
| Return (e : option error)
| Panic
| OutOfFuel.

(** ** [bufio.Reader]

    [rbuf] is the unread part of the buffer ([b.buf[b.r:b.w]]); [und] lists
    the results of the successive [Read] calls that the underlying
    connection will answer, in order; when [und] is exhausted the
    connection reports [io.EOF]. *)

Record Reader : Type := mkReader {
  rbuf : bytes;
  und  : list bytes
}.

(** Every byte the reader can still deliver. *)
Definition content (r : Reader) : bytes := rbuf r ++ concat (und r).

Definition maxConsecutiveEmptyReads : nat := 100.

(** [fill]'s loop: up to [maxConsecutiveEmptyReads] calls of the underlying
    [Read]; an empty read is retried, a non-empty one is stored. *)
Fixpoint fill_loop (tries : nat) (u : list bytes)
  : bytes * list bytes * option error :=
  match tries with
  | O => ([], u, Some ErrNoProgress)
  | S t =>
      match u with
      | [] => ([], [], Some EOF)
      | c :: rest =>
          match c with
          | [] => fill_loop t rest
          | _ :: _ => (c, rest, None)
          end
      end
  end.

Definition fill (r : Reader) : Reader * option error :=
  let '(c, u, e) := fill_loop maxConsecutiveEmptyReads (und r) in
  ({| rbuf := rbuf r ++ c; und := u |}, e).

Definition Buffered (r : Reader) : nat := length (rbuf r).

(** [for b.w-b.r < n && b.err == nil { b.fill() }]; a successful [fill]
    adds at least one byte, so [n] rounds are enough. *)
Fixpoint Peek_loop (k n : nat) (r : Reader) : Reader * option error :=
  match k with
  | O => (r, None)
  | S k' =>
      if n <=? Buffered r then (r, None)
      else
        let '(r', e) := fill r in
        match e with
        | Some _ => (r', e)
        | None => Peek_loop k' n r'
        end
  end.

(** [Peek(n)]: the next [n] bytes without advancing; fewer bytes come with
    the read error. *)
Definition Peek (n : nat) (r : Reader) : bytes * option error * Reader :=
  let '(r', e) := Peek_loop n n r in
  if n <=? Buffered r' then (firstn n (rbuf r'), None, r')
  else (rbuf r', e, r').

(** [Discard(n)]: skips the next [n] bytes, filling when the buffer is
    empty; returns the number of bytes skipped. *)
Fixpoint Discard_loop (k remain : nat) (r : Reader) : nat * option error * Reader :=
  match k with
  | O => (remain, None, r)
  | S k' =>
      let '(r1, e) :=
        if Buffered r =? 0 then fill r else (r, None) in
      let skip := Nat.min (Buffered r1) remain in
      let r2 := {| rbuf := skipn skip (rbuf r1); und := und r1 |} in
      let remain' := remain - skip in
      if remain' =? 0 then (0, None, r2)
      else
        match e with
        | Some _ => (remain', e, r2)
        | None => Discard_loop k' remain' r2
        end
  end.

Definition Discard (n : nat) (r : Reader) : nat * option error * Reader :=
  if n =? 0 then (0, None, r)
  else
    let '(remain, e, r') := Discard_loop n n r in
    (n - remain, e, r').

(** [ReadByte]: fills while the buffer is empty, then returns one byte;
    on a read error the byte is 0 and the error is returned. *)
Definition ReadByte (r : Reader) : Byte.byte * option error * Reader :=
  match rbuf r with
  | c :: b => (c, None, {| rbuf := b; und := und r |})
  | [] =>
      let '(r', e) := fill r in
      match rbuf r' with
      | c :: b => (c, None, {| rbuf := b; und := und r' |})
      | [] => (Byte.x00, e, r')
      end
  end.

(** [UnreadByte] after a [ReadByte] that returned [c]. *)
Definition UnreadByte (c : Byte.byte) (r : Reader) : Reader :=
  {| rbuf := c :: rbuf r; und := und r |}.

(** ** [bufio.Writer]

    [wbytes] are the bytes accepted so far.  [wroom] is the number of bytes
    the destination still takes before it fails ([None]: it never fails);
    [Write] returns fewer bytes than it was given only with an error. *)

Record Writer : Type := mkWriter {
  wbytes : bytes;
  wroom  : option nat
}.

Definition Write (p : bytes) (w : Writer) : nat * option error * Writer :=
  match wroom w with
  | None => (length p, None, {| wbytes := wbytes w ++ p; wroom := None |})
  | Some k =>
      if length p <=? k
      then (length p, None,
            {| wbytes := wbytes w ++ p; wroom := Some (k - length p) |})
      else (k, Some ErrIO,
            {| wbytes := wbytes w ++ firstn k p; wroom := Some 0 |})
  end.

(** ** Sniffer: the byte ranges handed to each of its sinks, in order. *)

Inductive sniffed : Type :=
| SReqLine (b : bytes)
| SRespLine (b : bytes)
| SHeader (b : bytes)
| SBody (b : bytes).

Definition Sniffer := list sniffed.

Definition sniff_Body (b : bytes) (s : Sniffer) : Sniffer := s ++ [SBody b].

(** All body bytes a sniffer has seen. *)
Fixpoint sniffer_body (s : Sniffer) : bytes :=
  match s with
  | [] => []
  | SBody b :: s' => b ++ sniffer_body s'
  | _ :: s' => sniffer_body s'
  end.

(** ** The body copier ([proxy/http.go]) *)

Definition isSome {A} (o : option A) : bool :=
  match o with Some _ => true | None => false end.

(** The state a copier threads through: source, destination, sniffer. *)
Definition io : Type := (Reader * Writer * Sniffer)%type.

(** [copyBodyFixedSize], one loop iteration per unit of fuel. *)
Fixpoint copyBodyFixedSize_loop (fuel : nat) (src : Reader) (dst : Writer)
    (byteStillNeeded : Z) (sniffer : Sniffer) : io * outcome :=
  match fuel with
  | O => ((src, dst, sniffer), OutOfFuel)
  | S fuel' =>
      (* read one more bytes *)
      let '(b1, _, src) := Peek 1 src in
      if (length b1 =? 0)%nat then ((src, dst, sniffer), Return (Some EOF))
      else
        (* must read buffed bytes *)
        let '(b, err, src) := Peek (Buffered src) src in
        if ((length b =? 0)%nat || isSome err)%bool
        then ((src, dst, sniffer), Panic)
        else
          (* write read bytes into dst *)
          let len_b := Z.of_nat (length b) in
          let _bytesShouldRead :=
            if (byteStillNeeded <=? len_b)%Z then byteStillNeeded else len_b in
          let byteStillNeeded := (byteStillNeeded - _bytesShouldRead)%Z in
          if (_bytesShouldRead <? 0)%Z
          then ((src, dst, sniffer), Panic)   (* b[:n] with n < 0 *)
          else
            let bytesShouldRead := Z.to_nat _bytesShouldRead in
            let '(bytesShouldWrite, err, dst) :=
              Write (firstn bytesShouldRead b) dst in
            match err with
            | Some e =>
                ((src, dst, sniffer),
                 Return (Some (Errorf "fail to write request body : " e)))
            | None =>
                if negb (bytesShouldWrite =? bytesShouldRead)%nat
                then ((src, dst, sniffer), Return (Some ErrShortWrite))
                else
                  let sniffer := sniff_Body (firstn bytesShouldRead b) sniffer in
                  (* must discard wrote bytes *)
                  let '(_, err, src) := Discard bytesShouldWrite src in
                  match err with
                  | Some _ => ((src, dst, sniffer), Panic)
                  | None =>
                      (* test if still read more bytes *)
                      if (byteStillNeeded =? 0)%Z
                      then ((src, dst, sniffer), Return None)
                      else copyBodyFixedSize_loop fuel' src dst
                             byteStillNeeded sniffer
                  end
            end
  end.

(** Every iteration that does not return removes at least one byte from
    the source, so one unit of fuel per available byte, plus one for the
    iteration that meets the end of the stream, always suffices. *)
Definition copyBodyFixedSize (src : Reader) (dst : Writer)
    (contentLength : Z) (sniffer : Sniffer) : io * outcome :=
  copyBodyFixedSize_loop (S (length (content src))) src dst contentLength sniffer.

(** A connection that never answers a [Read] with zero bytes: [fill] then
    cannot give up with [io.ErrNoProgress], and only fails at end of stream. *)
Definition no_stall (r : Reader) : Prop := Forall (fun c => c <> []) (und r).

(** What a call of the fixed-size copier guarantees, started from
    [(src, dst, sn)] with budget [N]: [consumed] are the bytes taken from
    the source, [extra] the bytes of a write that failed half-way. *)
Definition fixed_post (src : Reader) (dst : Writer) (sn : Sniffer) (N : Z)
    (res : io * outcome) : Prop :=
  let '((src', dst', sn'), out) := res in
  exists consumed extra : bytes,
    content src = consumed ++ content src' /\
    wbytes dst' = wbytes dst ++ consumed ++ extra /\
    sniffer_body sn' = sniffer_body sn ++ consumed /\
    (Z.of_nat (length consumed + length extra) <= N)%Z /\
    out <> Panic /\ out <> OutOfFuel /\
    (out = Return None -> extra = [] /\ Z.of_nat (length consumed) = N) /\
    (out = Return (Some EOF) ->
     extra = [] /\ rbuf src' = [] /\ (Z.of_nat (length consumed) < N)%Z) /\
    (wroom dst = None ->
     wroom dst' = None /\ (out = Return None \/ out = Return (Some EOF))) /\
    (no_stall src ->
     no_stall src' /\ (out = Return (Some EOF) -> content src' = [])) /\
    (out = Return None \/ out = Return (Some EOF) \/
     exists e, out = Return (Some (Errorf "fail to write request body : " e))).


(** Sample endpoints used in the examples: a source that delivers
    ["hello"] and then [" world"], and a destination that never fails. *)
Definition hello_src : Reader :=
  {| rbuf := lit "hello"; und := [lit " world"] |}.

Definition open_dst : Writer := {| wbytes := []; wroom := None |}.

(** ** Chunked bodies *)

(** Go's [int] and [int64] on the 64-bit targets the proxy is built for. *)
Definition MaxInt64 : Z := 9223372036854775807.

Definition wrap_int (z : Z) : Z := ((z + 2 ^ 63) mod 2 ^ 64 - 2 ^ 63)%Z.

(** Modelled from the spec: the value of a hex digit of a chunk size, in
    either letter case (the table [readHexInt] uses is not among the
    sources). *)
Definition hex2int (c : Byte.byte) : option Z :=
  match c with
  | Byte.x30 => Some 0 | Byte.x31 => Some 1 | Byte.x32 => Some 2
  | Byte.x33 => Some 3 | Byte.x34 => Some 4 | Byte.x35 => Some 5
  | Byte.x36 => Some 6 | Byte.x37 => Some 7 | Byte.x38 => Some 8
  | Byte.x39 => Some 9
  | Byte.x41 | Byte.x61 => Some 10 | Byte.x42 | Byte.x62 => Some 11
  | Byte.x43 | Byte.x63 => Some 12 | Byte.x44 | Byte.x64 => Some 13
  | Byte.x45 | Byte.x65 => Some 14 | Byte.x46 | Byte.x66 => Some 15
  | _ => None
  end%Z.

Definition is_hex (c : Byte.byte) : bool := isSome (hex2int c).

Definition hex_step (n : Z) (c : Byte.byte) : Z :=
  wrap_int (n * 16 + match hex2int c with Some k => k | None => 0 end).

(** The [int] a run of hex digits denotes. *)
Definition hexval (ds : bytes) : Z := fold_left hex_step ds 0%Z.

Definition semicolon : Byte.byte := Byte.x3b.

(** Modelled from the spec: the chunk extension of a size line.  After the
    hex digits a [;] starts an extension that is "currently ignored but
    forwarded verbatim": its bytes are appended to [buffer] up to, and
    without, the carriage return. *)
Fixpoint readChunkExt_loop (fuel : nat) (r : Reader) (buffer : bytes)
  : (Reader * bytes) * outcome :=
  match fuel with
  | O => ((r, buffer), OutOfFuel)
  | S fuel' =>
      let '(c, err, r) := ReadByte r in
      match err with
      | Some e => ((r, buffer), Return (Some e))
      | None =>
          if Byte.eqb c CR then ((UnreadByte c r, buffer), Return None)
          else readChunkExt_loop fuel' r (buffer ++ [c])
      end
  end.

(** Modelled from the spec: [readHexInt(r, buffer)] is called by
    [parseChunkSize] but its body is not among the sources.  Following
    "chunk-size parsing reads hex digits (optionally followed by a
    [;]-delimited extension that is currently ignored but forwarded
    verbatim), then a mandatory CRLF; invalid hex -> BadChunk": it reads hex
    digits, appends each to [buffer] and accumulates their value; the first
    other byte is put back, unless no digit was read, which is an error. *)
Fixpoint readHexInt_loop (fuel i : nat) (n : Z) (r : Reader) (buffer : bytes)
  : (Reader * bytes) * (Z * outcome) :=
  match fuel with
  | O => ((r, buffer), ((-1)%Z, OutOfFuel))
  | S fuel' =>
      let '(c, err, r) := ReadByte r in
      match err with
      | Some e => ((r, buffer), ((-1)%Z, Return (Some e)))
      | None =>
          if is_hex c
          then readHexInt_loop fuel' (S i) (hex_step n c) r (buffer ++ [c])
          else if (i =? 0)%nat
          then ((r, buffer), ((-1)%Z, Return (Some ErrEmptyHexNum)))
          else if Byte.eqb c semicolon
          then
            let '(st, out) := readChunkExt_loop fuel' r (buffer ++ [c]) in
            match out with
            | Return None => (st, (n, out))
            | _ => (st, ((-1)%Z, out))
            end
          else ((UnreadByte c r, buffer), (n, Return None))
      end
  end.

(** Modelled from the spec: [readHexInt], the loop above started with no
    digit read; one unit of fuel per byte of the source is enough. *)
Definition readHexInt (r : Reader) (buffer : bytes)
  : (Reader * bytes) * (Z * outcome) :=
  readHexInt_loop (S (length (content r))) 0 0%Z r buffer.

(** [parseChunkSize]: the size, then a mandatory ["\r\n"], which is added
    to [buffer] after the digits. *)
Definition parseChunkSize (r : Reader) (buffer : bytes)
  : (Reader * bytes) * (Z * outcome) :=
  let '((r, buffer), (n, out)) := readHexInt r buffer in
  match out with
  | Return None =>
      let '(c, err, r) := ReadByte r in
      match err with
      | Some e =>
          ((r, buffer),
           ((-1)%Z,
            Return (Some (Errorf
              "cannot read '\r' char at the end of chunk size: " e))))
      | None =>
          if negb (Byte.eqb c CR)
          then ((r, buffer), ((-1)%Z, Return (Some (ErrUnexpectedChar c CR))))
          else
            let '(c, err, r) := ReadByte r in
            match err with
            | Some e =>
                ((r, buffer),
                 ((-1)%Z,
                  Return (Some (Errorf
                    "cannot read '\n' char at the end of chunk size: " e))))
            | None =>
                if negb (Byte.eqb c LF)
                then ((r, buffer),
                      ((-1)%Z, Return (Some (ErrUnexpectedChar c LF))))
                else ((r, buffer ++ strCRLF), (n, Return None))
            end
      end
  | _ => ((r, buffer), ((-1)%Z, out))
  end.

(** [copyBodyChunked], one chunk per unit of fuel.  [buffer] is the pooled
    scratch buffer; it is reset at the start of every round. *)
Fixpoint copyBodyChunked_loop (fuel : nat) (src : Reader) (dst : Writer)
    (buffer : bytes) (sniffer : Sniffer) : io * outcome :=
  match fuel with
  | O => ((src, dst, sniffer), OutOfFuel)
  | S fuel' =>
      let strCRLFLen := Z.of_nat (length strCRLF) in
      (* read and calculate chunk size *)
      let buffer : bytes := [] in
      let '((src, buffer), (chunkSize, out)) := parseChunkSize src buffer in
      match out with
      | Return None =>
          let '(_, err, dst) := Write buffer dst in
          match err with
          | Some e => ((src, dst, sniffer), Return (Some e))
          | None =>
              let sniffer := sniff_Body buffer sniffer in
              (* copy the chunk *)
              let '((src, dst, sniffer), out) :=
                copyBodyFixedSize src dst
                  (wrap_int (chunkSize + strCRLFLen)) sniffer in
              match out with
              | Return None =>
                  if (chunkSize =? 0)%Z
                  then ((src, dst, sniffer), Return None)
                  else copyBodyChunked_loop fuel' src dst buffer sniffer
              | _ => ((src, dst, sniffer), out)
              end
          end
      | _ => ((src, dst, sniffer), out)
      end
  end.

(** Every round that goes on has consumed at least one byte. *)
Definition copyBodyChunked (src : Reader) (dst : Writer) (buffer : bytes)
    (sniffer : Sniffer) : io * outcome :=
  copyBodyChunked_loop (S (length (content src))) src dst buffer sniffer.

(** [copyBodyIdentity]: the fixed-size loop with budget [math.MaxInt64];
    [io.EOF] is turned into success. *)
Definition copyBodyIdentity (src : Reader) (dst : Writer) (sniffer : Sniffer)
  : io * outcome :=
  let '(st, out) := copyBodyFixedSize src dst MaxInt64 sniffer in
  match out with
  | Return (Some err) =>
      match err with
      | EOF => (st, Return None)
      | _ => (st, Return (Some err))
      end
  | _ => (st, out)
  end.

(** The [header] package is not among the sources.  [copyBody] and the
    request and response objects only look at a parsed header through its
    four accessors, so a header is represented by what these return. *)
Record Header : Type := mkHeader {
  ContentLength     : Z;
  IsBodyChunked     : bool;
  IsBodyIdentity    : bool;
  IsConnectionClose : bool
}.

(** [copyBody]: the dispatch on the parsed header. *)
Definition copyBody (src : Reader) (dst : Writer) (header : Header)
    (sniffer : Sniffer) : io * outcome :=
  if (ContentLength header >? 0)%Z then
    (* read contentLength data more from reader *)
    copyBodyFixedSize src dst (ContentLength header) sniffer
  else if IsBodyChunked header then
    (* read data chunked *)
    copyBodyChunked src dst [] sniffer
  else if IsBodyIdentity header then
    (* read till eof *)
    copyBodyIdentity src dst sniffer
  else ((src, dst, sniffer), Return None).


(** A chunk on the wire: its size line digits and the bytes that follow the
    size line's CRLF (the chunk body and its two closing bytes). *)
Record chunk : Type := mkChunk {
  chunk_digits : bytes;
  chunk_data   : bytes
}.

Definition chunk_wire (c : chunk) : bytes :=
  chunk_digits c ++ strCRLF ++ chunk_data c.

Definition size_line (ds : bytes) : Prop :=
  ds <> [] /\ forallb is_hex ds = true.

(** A chunk of non-zero size [n]: [n + 2] bytes follow the size line. *)
Definition data_chunk (c : chunk) : Prop :=
  size_line (chunk_digits c) /\
  (0 < hexval (chunk_digits c) <= MaxInt64 - 2)%Z /\
  Z.of_nat (length (chunk_data c)) = (hexval (chunk_digits c) + 2)%Z.










(** ** Request and Response objects ([proxy/http.go]) *)

(** The operations of package [header] that the proxy calls on start lines
    and header blocks.  The package is not among the sources, so they are
    taken as an interface; every function threads the object it mutates and
    the reader it consumes. *)
Class HeaderPackage : Type := {
  RequestLine  : Type;
  ResponseLine : Type;
  (* zero values of the structs *)
  RequestLine_zero  : RequestLine;
  ResponseLine_zero : ResponseLine;
  Header_zero       : Header;
  (* [reqLine.Parse(reader, hostWithPort)] *)
  RequestLine_Parse :
    RequestLine -> Reader -> string -> RequestLine * Reader * option error;
  RequestLine_Reset : RequestLine -> RequestLine;
  RebuildRequestLine : RequestLine -> bytes;
  IsConnect    : RequestLine -> bool;
  IsIdempotent : RequestLine -> bool;
  HostWithPort : RequestLine -> string;
  (* [respLine.Parse(reader)] *)
  ResponseLine_Parse :
    ResponseLine -> Reader -> ResponseLine * Reader * option error;
  ResponseLine_Reset : ResponseLine -> ResponseLine;
  GetResponseLine : ResponseLine -> bytes;
  (* [header.ParseHeaderFields(reader, buffer)]: the raw header block is
     left in the buffer *)
  ParseHeaderFields :
    Header -> Reader -> Header * Reader * bytes * option error;
  Header_Reset : Header -> Header
}.

Section Objects.

Context {HP : HeaderPackage}.

(** [type Request struct]; a nil [reader] is [None]. *)
Record Request : Type := mkRequest {
  reader        : option Reader;
  reqLine       : RequestLine;
  req_header    : Header;
  req_sniffer   : Sniffer;
  isTLS         : bool;
  tlsServerName : string
}.

(** [&Request{}] *)
Definition Request_zero : Request :=
  {| reader := None; reqLine := RequestLine_zero; req_header := Header_zero;
     req_sniffer := []; isTLS := false; tlsServerName := EmptyString |}.

Definition initWithReader (r : Request) (rd : option Reader)
    (sniffer : Sniffer) (is_tls : bool) (hostWithPort tls_name : string)
  : Request * option error :=
  match reader r with
  | Some _ => (r, Some (ErrNew "request already initialized"))
  | None =>
      match rd with
      | None => (r, Some (ErrNew "nil reader provided"))
      | Some rd =>
          if (is_tls && (String.length tls_name =? 0)%nat)%bool
          then (r, Some (ErrNew "empty tls server name provided"))
          else
            let '(line, rd, err) := RequestLine_Parse (reqLine r) rd hostWithPort in
            match err with
            | Some e =>
                let r := {| reader := reader r; reqLine := line;
                            req_header := req_header r;
                            req_sniffer := req_sniffer r;
                            isTLS := isTLS r;
                            tlsServerName := tlsServerName r |} in
                match e with
                | ErrNoHostProvided => (r, Some e)
                | _ =>
                    (r, Some (Errorf
                       "fail to read start line of request with error " e))
                end
            | None =>
                ({| reader := Some rd; reqLine := line;
                    req_header := req_header r;
                    req_sniffer := sniffer;
                    isTLS := is_tls;
                    tlsServerName := tls_name |}, None)
            end
      end
  end.

Definition InitWithProxyReader (r : Request) (rd : option Reader)
    (sniffer : Sniffer) : Request * option error :=
  initWithReader r rd sniffer false EmptyString EmptyString.

Definition InitWithTLSClientReader (r : Request) (rd : option Reader)
    (sniffer : Sniffer) (hostWithPort tls_name : string)
  : Request * option error :=
  initWithReader r rd sniffer true hostWithPort tls_name.

Definition GetStartLine (r : Request) : RequestLine := reqLine r.

Definition Request_ConnectionClose (r : Request) : bool :=
  IsConnectionClose (req_header r).

Definition Request_Reset (r : Request) : Request :=
  {| reader := None;
     reqLine := RequestLine_Reset (reqLine r);
     req_header := Header_Reset (req_header r);
     req_sniffer := req_sniffer r;
     isTLS := isTLS r;
     tlsServerName := tlsServerName r |}.

Definition IsTLS (r : Request) : bool := isTLS r.

Definition TLSServerName (r : Request) : string := tlsServerName r.

(** [Request.WriteTo]: start line, header block, body. *)
Definition Request_WriteTo (r : Request) (writer : Writer)
  : Request * Writer * outcome :=
  match reader r with
  | None => (r, writer, Return (Some (ErrNew "Empty request, nothing to write")))
  | Some rd =>
      (* rebuild & write the start line *)
      let buffer := RebuildRequestLine (reqLine r) in
      let '(_, err, writer) := Write buffer writer in
      match err with
      | Some e => (r, writer, Return (Some (Errorf "fail to write start line : " e)))
      | None =>
          let sniffer := req_sniffer r ++ [SReqLine buffer] in
          (* read & write the headers *)
          let '(h, rd, buffer, err) := ParseHeaderFields (req_header r) rd in
          let bind rd sniffer :=
            {| reader := Some rd; reqLine := reqLine r; req_header := h;
               req_sniffer := sniffer; isTLS := isTLS r;
               tlsServerName := tlsServerName r |} in
          match err with
          | Some e =>
              (bind rd sniffer, writer,
               Return (Some (Errorf "fail to parse http headers : " e)))
          | None =>
              let '(_, err, writer) := Write buffer writer in
              match err with
              | Some e =>
                  (bind rd sniffer, writer,
                   Return (Some (Errorf "fail to write headers : " e)))
              | None =>
                  let sniffer := sniffer ++ [SHeader buffer] in
                  (* write the request body (if any) *)
                  let '((rd, writer, sniffer), out) :=
                    copyBody rd writer h sniffer in
                  (bind rd sniffer, writer, out)
              end
          end
      end
  end.

(** [type Response struct]; a nil [writer] is [None]. *)
Record Response : Type := mkResponse {
  writer       : option Writer;
  resp_sniffer : Sniffer;
  respLine     : ResponseLine;
  resp_header  : Header
}.

Definition Response_zero : Response :=
  {| writer := None; resp_sniffer := []; respLine := ResponseLine_zero;
     resp_header := Header_zero |}.

Definition InitWithWriter (r : Response) (w : option Writer)
    (sniffer : Sniffer) : Response * option error :=
  match writer r with
  | Some _ => (r, Some (ErrNew "response already initialized"))
  | None =>
      match w with
      | None => (r, Some (ErrNew "nil writer provided"))
      | Some w =>
          ({| writer := Some w; resp_sniffer := sniffer;
              respLine := respLine r; resp_header := resp_header r |}, None)
      end
  end.

(** [Response.ReadFrom]: start line, header block and body of the upstream
    answer go to the bound writer.  (On a nil writer the first [Write]
    dereferences nil.) *)
Definition Response_ReadFrom (r : Response) (rd : Reader)
  : Response * Reader * outcome :=
  let '(line, rd, err) := ResponseLine_Parse (respLine r) rd in
  let upd w sniffer h :=
    {| writer := w; resp_sniffer := sniffer; respLine := line;
       resp_header := h |} in
  match err with
  | Some e =>
      (upd (writer r) (resp_sniffer r) (resp_header r), rd,
       Return (Some (Errorf
         "fail to read start line of response with error " e)))
  | None =>
      match writer r with
      | None => (upd None (resp_sniffer r) (resp_header r), rd, Panic)
      | Some w =>
          let respLineBytes := GetResponseLine line in
          let '(_, err, w) := Write respLineBytes w in
          match err with
          | Some e =>
              (upd (Some w) (resp_sniffer r) (resp_header r), rd,
               Return (Some (Errorf "fail to write start line : " e)))
          | None =>
              let sniffer := resp_sniffer r ++ [SRespLine respLineBytes] in
              (* read & write the headers *)
              let '(h, rd, buffer, err) :=
                ParseHeaderFields (resp_header r) rd in
              match err with
              | Some e =>
                  (upd (Some w) sniffer h, rd,
                   Return (Some (Errorf "fail to parse http headers : " e)))
              | None =>
                  let '(_, err, w) := Write buffer w in
                  match err with
                  | Some e =>
                      (upd (Some w) sniffer h, rd,
                       Return (Some (Errorf "fail to write headers : " e)))
                  | None =>
                      let sniffer := sniffer ++ [SHeader buffer] in
                      (* write the request body (if any) *)
                      let '((rd, w, sniffer), out) :=
                        copyBody rd w h sniffer in
                      (upd (Some w) sniffer h, rd, out)
                  end
              end
          end
      end
  end.

Definition Response_Reset (r : Response) : Response :=
  {| writer := None; resp_sniffer := resp_sniffer r;
     respLine := ResponseLine_Reset (respLine r);
     resp_header := Header_Reset (resp_header r) |}.

(** [Response.ConnectionClose] *)
Definition Response_ConnectionClose (r : Response) : bool := false.

(** [requestPool]: a [sync.Pool], here the stack of released objects. *)
Definition RequestPool : Type := list Request.

Definition AcquireRequest (pool : RequestPool) : Request * RequestPool :=
  match pool with
  | [] => (Request_zero, [])
  | v :: pool' => (v, pool')
  end.

Definition ReleaseRequest (req : Request) (pool : RequestPool) : RequestPool :=
  Request_Reset req :: pool.

(** What can happen to a [Request] between two uses. *)
Inductive request_op : Type :=
| OpInit (rd : option Reader) (sniffer : Sniffer) (is_tls : bool)
         (hostWithPort tls_name : string)
| OpReset.

Definition apply_op (r : Request) (op : request_op) : Request :=
  match op with
  | OpInit rd sn t h n => fst (initWithReader r rd sn t h n)
  | OpReset => Request_Reset r
  end.

Definition run_ops (ops : list request_op) (r : Request) : Request :=
  fold_left apply_op ops r.

End Objects.

(** ** A small header package

    Modelled from the spec: package [header] is not among the sources.  The
    examples below run the proxy on a plain implementation of the interface
    that follows section 4.1 of the design: a request line is one
    CRLF-terminated line in absolute, origin or authority form; its
    [host:port] comes from the CONNECT target, else from the authority of an
    absolute URI, else from the expected host, and without any of them the
    parse fails with [ErrNoHostProvided]; the header block is copied
    unchanged up to the empty line, "chunked" winning over a content
    length. *)

Fixpoint read_line_loop (fuel : nat) (r : Reader) (acc : bytes)
  : bytes * Reader * option error :=
  match fuel with
  | O => (acc, r, Some ErrNoProgress)
  | S fuel' =>
      let '(c, err, r) := ReadByte r in
      match err with
      | Some e => (acc, r, Some e)
      | None =>
          if Byte.eqb c LF then (acc ++ [c], r, None)
          else read_line_loop fuel' r (acc ++ [c])
      end
  end.

Definition read_line (r : Reader) : bytes * Reader * option error :=
  read_line_loop (S (length (content r))) r [].

Fixpoint bytes_eqb (a b : bytes) : bool :=
  match a, b with
  | [], [] => true
  | x :: a', y :: b' => Byte.eqb x y && bytes_eqb a' b'
  | _, _ => false
  end.

Fixpoint starts_with (prefix l : bytes) : bool :=
  match prefix, l with
  | [], _ => true
  | x :: p', y :: l' => Byte.eqb x y && starts_with p' l'
  | _ :: _, [] => false
  end.

(** The bytes before the first [sep], and those after it. *)
Fixpoint split_at (sep : Byte.byte) (l : bytes) : bytes * bytes :=
  match l with
  | [] => ([], [])
  | x :: l' =>
      if Byte.eqb x sep then ([], l')
      else let '(a, b) := split_at sep l' in (x :: a, b)
  end.

Definition space : Byte.byte := Byte.x20.
Definition slash : Byte.byte := Byte.x2f.

Definition strip_crlf (l : bytes) : bytes :=
  fst (split_at CR (fst (split_at LF l))).

Record sample_line : Type := mkLine {
  sl_method  : bytes;
  sl_target  : bytes;
  sl_version : bytes;
  sl_host    : bytes
}.

Definition sample_line_zero : sample_line :=
  {| sl_method := []; sl_target := []; sl_version := []; sl_host := [] |}.

(** Modelled from the spec: [parse_request_line] of section 4.1. *)
Definition sample_parse_request_line (l : sample_line) (rd : Reader)
    (hostWithPort : string) : sample_line * Reader * option error :=
  let '(raw, rd, err) := read_line rd in
  match err with
  | Some e => (l, rd, Some e)
  | None =>
      let '(m, rest) := split_at space (strip_crlf raw) in
      let '(t, v) := split_at space rest in
      let host :=
        if bytes_eqb m (lit "CONNECT") then t
        else if starts_with (lit "http://") t
        then fst (split_at slash (skipn 7 t))
        else lit hostWithPort in
      let l := {| sl_method := m; sl_target := t; sl_version := v;
                  sl_host := host |} in
      match host with
      | [] => (l, rd, Some ErrNoHostProvided)
      | _ :: _ => (l, rd, None)
      end
  end.

(** Modelled from the spec: [RebuildRequestLine] emits the request in
    origin form: the path of an absolute URI, the target otherwise. *)
Definition sample_rebuild (l : sample_line) : bytes :=
  let path :=
    if starts_with (lit "http://") (sl_target l)
    then slash :: snd (split_at slash (skipn 7 (sl_target l)))
    else sl_target l in
  sl_method l ++ [space] ++ path ++ [space] ++ sl_version l ++ strCRLF.

(** Modelled from the spec: GET, HEAD, OPTIONS, TRACE, PUT and DELETE are
    idempotent, the other methods are not. *)
Definition sample_idempotent (l : sample_line) : bool :=
  existsb (bytes_eqb (sl_method l))
    [lit "GET"; lit "HEAD"; lit "OPTIONS"; lit "TRACE"; lit "PUT"; lit "DELETE"].

(** Modelled from the spec: [parse_response_line] reads one line and
    retains the raw bytes. *)
Definition sample_parse_response_line (l : bytes) (rd : Reader)
  : bytes * Reader * option error :=
  let '(raw, rd, err) := read_line rd in
  match err with
  | Some e => (l, rd, Some e)
  | None => (raw, rd, None)
  end.

Definition dec2int (c : Byte.byte) : Z :=
  match hex2int c with Some k => k | None => 0%Z end.

(** Modelled from the spec: the signals a header line updates:
    content length, chunked transfer encoding (which wins over a content
    length) and [Connection: close]. *)
Definition sample_header_line (h : Header) (line : bytes) : Header :=
  if bytes_eqb line (lit "Transfer-Encoding: chunked") then
    {| ContentLength := 0; IsBodyChunked := true;
       IsBodyIdentity := false; IsConnectionClose := IsConnectionClose h |}
  else if starts_with (lit "Content-Length: ") line then
    if IsBodyChunked h then h
    else
      {| ContentLength :=
           fold_left (fun n c => (n * 10 + dec2int c)%Z) (skipn 16 line) 0%Z;
         IsBodyChunked := false; IsBodyIdentity := false;
         IsConnectionClose := IsConnectionClose h |}
  else if bytes_eqb line (lit "Connection: close") then
    {| ContentLength := ContentLength h; IsBodyChunked := IsBodyChunked h;
       IsBodyIdentity := IsBodyIdentity h; IsConnectionClose := true |}
  else h.

(** Modelled from the spec: [parse_header_fields] reads lines until the
    empty one and appends the raw bytes to the buffer unchanged. *)
Fixpoint sample_header_loop (fuel : nat) (h : Header) (rd : Reader)
    (buffer : bytes) : Header * Reader * bytes * option error :=
  match fuel with
  | O => (h, rd, buffer, Some ErrNoProgress)
  | S fuel' =>
      let '(raw, rd, err) := read_line rd in
      match err with
      | Some e => (h, rd, buffer ++ raw, Some e)
      | None =>
          match strip_crlf raw with
          | [] => (h, rd, buffer ++ raw, None)
          | line =>
              sample_header_loop fuel' (sample_header_line h line) rd
                                 (buffer ++ raw)
          end
      end
  end.

Definition sample_header_zero : Header :=
  {| ContentLength := 0; IsBodyChunked := false;
     IsBodyIdentity := false; IsConnectionClose := false |}.

Definition sample_parse_header (h : Header) (rd : Reader)
  : Header * Reader * bytes * option error :=
  sample_header_loop (S (length (content rd))) h rd [].

(** Modelled from the spec: the header package of the examples. *)
#[export] Instance sample_package : HeaderPackage := {|
  RequestLine := sample_line;
  ResponseLine := bytes;
  RequestLine_zero := sample_line_zero;
  ResponseLine_zero := [];
  Header_zero := sample_header_zero;
  RequestLine_Parse := sample_parse_request_line;
  RequestLine_Reset := fun _ => sample_line_zero;
  RebuildRequestLine := sample_rebuild;
  IsConnect := fun l => bytes_eqb (sl_method l) (lit "CONNECT");
  IsIdempotent := sample_idempotent;
  HostWithPort := fun l => string_of_list_byte (sl_host l);
  ResponseLine_Parse := sample_parse_response_line;
  ResponseLine_Reset := fun _ => [];
  GetResponseLine := fun l => l;
  ParseHeaderFields := sample_parse_header;
  Header_Reset := fun _ => sample_header_zero
|}.

(** A request of the sample package that is bound to a reader and was
    used for a TLS exchange with [example.test]. *)
Definition bound_request : Request :=
  {| reader := Some hello_src;
     reqLine := sample_line_zero;
     req_header := sample_header_zero;
     req_sniffer := [];
     isTLS := true;
     tlsServerName := "example.test" |}.

(** An origin-form request line with no host: scenario E2. *)
Definition e2_bytes : bytes := lit "GET / HTTP/1.1" ++ strCRLF ++ strCRLF.

Definition e2_src : Reader := {| rbuf := []; und := [e2_bytes] |}.

(** An upstream answer that asks to close the connection. *)
Definition close_answer : Reader :=
  {| rbuf := [];
     und := [lit "HTTP/1.1 200 OK" ++ strCRLF ++ lit "Connection: close"
             ++ strCRLF ++ strCRLF] |}.

Definition open_response : Response :=
  {| writer := Some open_dst; resp_sniffer := [];
     respLine := []; resp_header := sample_header_zero |}.

(** ** The proxy server ([proxy/proxy.go]) *)

(** A [net.Conn]: the reads the peer will answer, the bytes written to the
    peer, and whether [Close] was called. *)
Record Conn : Type := mkConn {
  c_in     : list bytes;
  c_out    : Writer;
  c_closed : bool
}.

Definition Conn_Write (p : bytes) (c : Conn) : nat * option error * Conn :=
  let '(n, err, w) := Write p (c_out c) in
  (n, err, {| c_in := c_in c; c_out := w; c_closed := c_closed c |}).

Definition Conn_Close (c : Conn) : Conn :=
  {| c_in := c_in c; c_out := c_out c; c_closed := true |}.

(** [fmt]'s [%d]. *)
Definition decimal (n : nat) : bytes := lit (NilZero.string_of_uint (Nat.to_uint n)).

Definition StatusBadRequest : nat := 400.
Definition StatusServiceUnavailable : nat := 503.

(** Modelled from the spec: [header.StatusLine] is not among the sources.
    Section 6 gives the two status lines the server builds with it,
    [HTTP/1.1 400 Bad Request] and [HTTP/1.1 503 Service Unavailable], each
    closed by CRLF. *)
Definition StatusMessage (statusCode : nat) : string :=
  if (statusCode =? 400)%nat then "Bad Request"
  else if (statusCode =? 503)%nat then "Service Unavailable"
  else "Unknown Status Code".

(** Modelled from the spec: [header.StatusLine], the status line of the
    downstream wire protocol, [HTTP/1.1 <code> <reason>] and CRLF. *)
Definition StatusLine (statusCode : nat) : bytes :=
  lit "HTTP/1.1 " ++ decimal statusCode ++ lit " "
  ++ lit (StatusMessage statusCode) ++ strCRLF.

(** [writeFastError]; [date] is what [servertime.ServerDate()] returns. *)
Definition writeFastError (date : string) (w : Conn) (statusCode : nat)
    (msg : bytes) : Conn * option error :=
  let '(_, err, w) := Conn_Write (StatusLine statusCode) w in
  match err with
  | Some e => (w, Some e)
  | None =>
      let '(_, err, w) :=
        Conn_Write
          (lit "Connection: close" ++ strCRLF ++
           lit "Date: " ++ lit date ++ strCRLF ++
           lit "Content-Type: text/plain" ++ strCRLF ++
           lit "Content-Length: " ++ decimal (length msg) ++ strCRLF ++
           strCRLF ++
           msg) w in
      (w, err)
  end.

(** [fmt.Errorf("%s: %s", msg, err)] *)
Definition errorWrapper (msg : string) (err : error) : error :=
  Errorf (msg ++ ": ") err.

(** The answer to a request that is not a proxy request. *)
Definition non_proxy_msg : bytes :=
  lit "This is a proxy server. Does not respond to non-proxy requests." ++ [LF].

Definition overflow_msg : bytes :=
  lit "The connection cannot be served because Server.Concurrency limit exceeded".

Section Proxy.

Context {HP : HeaderPackage}.

(** The two handlers of [p.Handler] that [serveConn] hands the connection
    to once the request line is known. *)
Variable handleHTTPConns :
  Conn -> Request -> Sniffer -> Conn * Request * option error.
Variable handleHTTPSConns :
  Conn -> string -> Sniffer -> Conn * option error.

(** [serveConn]; [pool] is the request pool and [sniffer] the sniffer the
    sniffer pool returns for the remote address. *)
Definition serveConn (date : string) (c : Conn) (pool : RequestPool)
    (sniffer : Sniffer) : Conn * RequestPool * option error :=
  (* convert c into a http request *)
  let reader := {| rbuf := []; und := c_in c |} in
  let '(req, pool) := AcquireRequest pool in
  let '(req, err) := InitWithProxyReader req (Some reader) sniffer in
  match err with
  | Some err =>
      let pool := ReleaseRequest req pool in
      match err with
      | ErrNoHostProvided =>
          let err := ErrNew "client requests a non-proxy request" in
          (* handle http server request *)
          let '(c, e) := writeFastError date c StatusBadRequest non_proxy_msg in
          match e with
          | Some e =>
              (c, pool,
               Some (errorWrapper "fail to read http request header"
                       (errorWrapper "fail to response non-proxy request " e)))
          | None =>
              (c, pool,
               Some (errorWrapper "fail to read http request header" err))
          end
      | _ =>
          (c, pool, Some (errorWrapper "fail to read http request header" err))
      end
  | None =>
      (* handle http requests *)
      let line := GetStartLine req in
      if negb (IsConnect line)
      then
        let '(c, req, err) := handleHTTPConns c req sniffer in
        (c, ReleaseRequest req pool, err)
      else
        (* handle https proxy request *)
        let host := HostWithPort line in
        let pool := ReleaseRequest req pool in
        let '(c, err) := handleHTTPSConns c host sniffer in
        (c, pool, err)
  end.

(** Modelled from the spec: the worker of package [server] (not among the
    sources) that runs [serveConn] as its [WorkerFunc]; state S_END of
    section 4.7: when [serve_conn] is over the socket is closed. *)
Definition workerServe (date : string) (c : Conn) (pool : RequestPool)
    (sniffer : Sniffer) : Conn * RequestPool * option error :=
  let '(c, pool, err) := serveConn date c pool sniffer in
  (Conn_Close c, pool, err).

End Proxy.

(** The response of scenario E2 as the design document prints it, with a
    content length of 60. *)
Definition stated_400_response (date : string) : bytes :=
  lit "HTTP/1.1 400 Bad Request" ++ strCRLF ++
  lit "Connection: close" ++ strCRLF ++
  lit "Date: " ++ lit date ++ strCRLF ++
  lit "Content-Type: text/plain" ++ strCRLF ++
  lit "Content-Length: 60" ++ strCRLF ++
  strCRLF ++
  lit "This is a proxy server. Does not respond to non-proxy requests." ++ [LF].

(** The response the server sends: the content length is the length of the
    message, 64. *)
Definition bad_request_response (date : string) : bytes :=
  lit "HTTP/1.1 400 Bad Request" ++ strCRLF ++
  lit "Connection: close" ++ strCRLF ++
  lit "Date: " ++ lit date ++ strCRLF ++
  lit "Content-Type: text/plain" ++ strCRLF ++
  lit "Content-Length: 64" ++ strCRLF ++
  strCRLF ++
  lit "This is a proxy server. Does not respond to non-proxy requests." ++ [LF].

Definition sample_date : string := "Mon, 02 Jan 2006 15:04:05 GMT".

(** The connection of scenario E2. *)
Definition e2_conn : Conn :=
  {| c_in := [e2_bytes]; c_out := open_dst; c_closed := false |}.

(** Handlers that leave the connection alone, for the examples that never
    reach them. *)
Definition idle_http (c : Conn) (r : Request) (_ : Sniffer)
  : Conn * Request * option error := (c, r, None).

Definition idle_https (c : Conn) (_ : string) (_ : Sniffer)
  : Conn * option error := (c, None).

(** *** The accept loop *)

(** [const DefaultConcurrency = 256 * 1024] *)
Definition DefaultConcurrency : Z := 256 * 1024.

(** Go's [time.Time] and [time.Duration], in nanoseconds; a [time.Time] is
    counted from the Unix epoch, and the zero [time.Time] is 1 January of
    year 1. *)
Definition Millisecond : Z := 1000000.
Definition Second : Z := 1000 * Millisecond.
Definition Minute : Z := 60 * Second.
Definition zeroTime : Z := -62135596800 * Second.

(** Modelled from the spec: [server.WorkerPool] is not among the sources.
    "Fixed [MaxWorkers]; submit is non-blocking: it returns Accepted or
    Rejected"; the pool never runs more than [MaxWorkersCount] workers, so a
    submission is accepted when fewer than that are busy. *)
Record WorkerPool : Type := mkWorkerPool {
  MaxWorkersCount : Z;
  busy            : Z
}.

(** Modelled from the spec: [wp.Serve(c)], the non-blocking submit; it is
    rejected when [MaxWorkersCount] workers are busy. *)
Definition WorkerPool_Serve (wp : WorkerPool) : bool * WorkerPool :=
  if (busy wp <? MaxWorkersCount wp)%Z
  then (true, {| MaxWorkersCount := MaxWorkersCount wp; busy := busy wp + 1 |})
  else (false, wp).

(** Modelled from the spec: workers that finished since the last
    submission become idle again. *)
Definition WorkerPool_done (n : Z) (wp : WorkerPool) : WorkerPool :=
  {| MaxWorkersCount := MaxWorkersCount wp; busy := Z.max 0 (busy wp - n) |}.

(** What the listener answers to one [Accept]: a connection, together with
    the readings of the clocks while it is handled ([time.Now()],
    [servertime.CoarseTimeNow()], [servertime.ServerDate()]) and the number
    of workers that have finished meanwhile; a temporary error; or a
    permanent one. *)
Inductive accept_result : Type :=
| AcceptConn (c : Conn) (finished : Z) (now coarse : Z) (date : string)
| AcceptTemporary (e : error)
| AcceptPermanent (e : error).

(** What the loop does, in order. *)
Inductive effect : Type :=
| Dispatched (c : Conn)              (* handed to a worker *)
| Rejected (c : Conn)                (* answered by the loop itself *)
| Logged (now stamp : Z) (workers : Z)
                                     (* overflow logged at [now], [stamp] kept *)
| LoggedAccept (e : error)           (* accept error logged *)
| Slept (d : Z).                     (* time.Sleep(d) *)

Definition is_EOF (e : error) : bool :=
  match e with EOF => true | _ => false end.

(** [strings.Contains(err.Error(), "use of closed network connection")] *)
Definition is_closed_listener (e : error) : bool :=
  match e with
  | ErrNew msg => String.eqb msg "use of closed network connection"
  | _ => false
  end.

(** The branch [if !wp.Serve(c)] of [Serve]. *)
Definition serve_rejected (maxWorkersCount : Z) (c : Conn) (date : string)
    (now coarse lastOverflowErrorTime : Z) : list effect * Z :=
  let '(c, _) := writeFastError date c StatusServiceUnavailable overflow_msg in
  let c := Conn_Close c in
  let '(logs, lastOverflowErrorTime) :=
    if (now - lastOverflowErrorTime >? Minute)%Z
    then ([Logged now coarse maxWorkersCount], coarse)
    else ([], lastOverflowErrorTime) in
  ([Rejected c] ++ logs ++ [Slept (100 * Millisecond)], lastOverflowErrorTime).

(** The loop of [Serve] over the answers of the listener; [Some e] is the
    value [Serve] returns, [None] means it is still accepting. *)
Fixpoint Serve_loop (accepts : list accept_result) (wp : WorkerPool)
    (lastOverflowErrorTime : Z) : list effect * option (option error) :=
  match accepts with
  | [] => ([], None)
  | AcceptTemporary e :: rest =>
      (* acceptConn: log, sleep a second, accept again *)
      let '(fx, r) := Serve_loop rest wp lastOverflowErrorTime in
      (LoggedAccept e :: Slept Second :: fx, r)
  | AcceptPermanent e :: _ =>
      (* acceptConn turns a closed listener into io.EOF; Serve returns nil
         on io.EOF *)
      if is_EOF e || is_closed_listener e
      then ([], Some None)
      else ([LoggedAccept e], Some (Some e))
  | AcceptConn c finished now coarse date :: rest =>
      let '(ok, wp) := WorkerPool_Serve (WorkerPool_done finished wp) in
      if ok then
        let '(fx, r) := Serve_loop rest wp lastOverflowErrorTime in
        (Dispatched c :: fx, r)
      else
        let '(fx1, lastOverflowErrorTime) :=
          serve_rejected (MaxWorkersCount wp) c date now coarse
                         lastOverflowErrorTime in
        let '(fx, r) := Serve_loop rest wp lastOverflowErrorTime in
        (fx1 ++ fx, r)
  end.

(** [Serve]: the pool is created with [DefaultConcurrency] workers and the
    overflow time starts as the zero [time.Time]. *)
Definition Serve_pool : WorkerPool :=
  {| MaxWorkersCount := DefaultConcurrency; busy := 0 |}.

Definition Serve (accepts : list accept_result)
  : list effect * option (option error) :=
  Serve_loop accepts Serve_pool zeroTime.

(** The overflow logs of a run: when each was written and the time it
    stamped. *)
Fixpoint overflow_logs (fx : list effect) : list (Z * Z) :=
  match fx with
  | [] => []
  | Logged now stamp _ :: fx' => (now, stamp) :: overflow_logs fx'
  | _ :: fx' => overflow_logs fx'
  end.



(** A pool of one worker that is busy, and three clients that arrive 0, 30
    and 90 seconds after some instant [t0]. *)
Definition fresh_conn : Conn :=
  {| c_in := []; c_out := open_dst; c_closed := false |}.

Definition t0 : Z := 1700000000 * Second.

Definition three_overflows : list accept_result :=
  [ AcceptConn fresh_conn 0 t0 t0 sample_date;
    AcceptConn fresh_conn 0 (t0 + 30 * Second) (t0 + 30 * Second) sample_date;
    AcceptConn fresh_conn 0 (t0 + 90 * Second) (t0 + 90 * Second) sample_date ].

Definition full_pool : WorkerPool := {| MaxWorkersCount := 1; busy := 1 |}.

(** ** The CONNECT handlers *)

(** Modelled from the spec: [util.WriteWithValidation] is not among the
    sources.  The handlers use it to "write [HTTP/1.1 200 OK] to the
    client" (section 4.6) and the 501 line of section 6: it writes all of
    [p] to [c] and reports a failed or a short write. *)
Definition WriteWithValidation (c : Conn) (p : bytes) : Conn * option error :=
  let '(n, err, c) := Conn_Write p c in
  match err with
  | Some e => (c, Some e)
  | None => if (n =? length p)%nat then (c, None) else (c, Some ErrShortWrite)
  end.

Definition statusOK : bytes := lit "HTTP/1.1 200 OK" ++ strCRLF ++ strCRLF.

Definition statusBadGateway : bytes :=
  lit "HTTP/1.1 501 Bad Gateway" ++ strCRLF ++ strCRLF.

Definition sendHTTPSProxyStatusOK (c : Conn) : Conn * option error :=
  WriteWithValidation c statusOK.

Definition sendHTTPSProxyStatusBadGateway (c : Conn) : Conn * option error :=
  WriteWithValidation c statusBadGateway.

(** *** The opaque tunnel *)

(** The state of [tunnelConnect] once both copiers are started: the two
    sockets, the error each copier has stored when it is done ([None]
    while it runs), and the counter of the [sync.WaitGroup]. *)
Record splice : Type := mkSplice {
  s_client : Conn;                     (* conn *)
  s_origin : Conn;                     (* tunnelConn *)
  s_err1   : option (option error);    (* client -> origin copier *)
  s_err2   : option (option error);    (* origin -> client copier *)
  s_wg     : nat
}.

Inductive tunnel_phase : Type :=
| Tunnel_returned (conn : Conn) (e : error)
| Tunnel_splicing (s : splice).

(** [tunnelConnect] up to [wg.Add(2)] and the two [go] statements;
    [dialed] is what [transport.Dial(host)] returns. *)
Definition tunnelConnect_start (dialed : error + Conn) (conn : Conn)
    (host : string) : tunnel_phase :=
  (* acquire server conn to target host *)
  match dialed with
  | inl err =>
      let '(conn, _) := sendHTTPSProxyStatusBadGateway conn in
      Tunnel_returned conn
        (errorWrapper ("error occurred when dialing to host" ++ host) err)
  | inr tunnelConn =>
      (* handshake with client *)
      let '(conn, err) := sendHTTPSProxyStatusOK conn in
      match err with
      | Some e =>
          Tunnel_returned conn
            (errorWrapper "error occurred when handshaking with client" e)
      | None =>
          Tunnel_splicing
            {| s_client := conn; s_origin := tunnelConn;
               s_err1 := None; s_err2 := None; s_wg := 2 |}
      end
  end.

(** Modelled from the spec: [transport.Forward(dst, src)] is not among the
    sources.  "Each byte written by either endpoint must appear at the
    other in order": one round reads what [src] delivers next and writes it
    to [dst]; the copy is over, without error, when [src] is at its end,
    and with the error when the write fails. *)
Inductive forward_round : Type :=
| Copied (src dst : Conn)
| Finished (src dst : Conn) (e : option error).

(** Modelled from the spec: one round of [transport.Forward(dst, src)]. *)
Definition Forward_round (dst src : Conn) : forward_round :=
  match c_in src with
  | [] => Finished src dst None
  | p :: rest =>
      let src := {| c_in := rest; c_out := c_out src;
                    c_closed := c_closed src |} in
      let '(_, err, dst) := Conn_Write p dst in
      match err with
      | Some e => Finished src dst (Some e)
      | None => Copied src dst
      end
  end.



(** [wg.Wait()] and the end of [tunnelConnect]: it blocks ([None]) while
    the counter is positive, then returns the first error. *)
Definition tunnelConnect_finish (s : splice) : option (option error) :=
  if (s_wg s =? 0)%nat then
    match s_err1 s, s_err2 s with
    | Some (Some err1), _ =>
        Some (Some (errorWrapper
          "error occurred when tunneling client request to client" err1))
    | _, Some (Some err2) =>
        Some (Some (errorWrapper
          "error occurred when tunneling client response to client" err2))
    | _, _ => Some None
    end
  else None.

(** A schedule: which copier moves next ([true]: client -> origin). *)
Definition splice_move (s : splice) (up : bool) : splice :=
  if up then
    match s_err1 s with
    | Some _ => s
    | None =>
        match Forward_round (s_origin s) (s_client s) with
        | Copied src dst =>
            {| s_client := src; s_origin := dst; s_err1 := None;
               s_err2 := s_err2 s; s_wg := s_wg s |}
        | Finished src dst e =>
            {| s_client := src; s_origin := dst; s_err1 := Some e;
               s_err2 := s_err2 s; s_wg := s_wg s - 1 |}
        end
    end
  else
    match s_err2 s with
    | Some _ => s
    | None =>
        match Forward_round (s_client s) (s_origin s) with
        | Copied src dst =>
            {| s_client := dst; s_origin := src; s_err1 := s_err1 s;
               s_err2 := None; s_wg := s_wg s |}
        | Finished src dst e =>
            {| s_client := dst; s_origin := src; s_err1 := s_err1 s;
               s_err2 := Some e; s_wg := s_wg s - 1 |}
        end
    end.

Definition splice_run (schedule : list bool) (s : splice) : splice :=
  fold_left splice_move schedule s.

(** Each copier moves until it is done, the two taking turns. *)
Definition fair_schedule (s : splice) : list bool :=
  flat_map (fun _ => [true; false])
    (seq 0 (S (length (c_in (s_client s)) + length (c_in (s_origin s))))).


(** Scenario E3: a client that sends two records and an origin that
    answers with one. *)
Definition e3_client : Conn :=
  {| c_in := [lit "hello "; lit "origin"]; c_out := open_dst;
     c_closed := false |}.

Definition e3_origin : Conn :=
  {| c_in := [lit "hello client"]; c_out := open_dst; c_closed := false |}.




(** *** The MITM handler *)

(** What [decryptConnect] does with the decrypted stream. *)
Inductive mitm_event : Type :=
| MitmBound (serverName : string)   (* a Request was bound to the stream *)
| MitmForwarded                     (* [client.Do] sent it upstream *)
| MitmClosed.                       (* the TLS connection was closed *)

Section Mitm.

Context {HP : HeaderPackage}.

(** The collaborators of the handler that are outside the package:
    [net.SplitHostPort], [cert.GenCert] on the MITM CA, the TLS server
    handshake on the client socket (the server name of the client hello, as
    the [GetCertificate] callback stores it, and the decrypted connection
    or the error) and [client.Do]. *)
Variable Certificate : Type.
Variable SplitHostPort : string -> error + (string * string).
Variable GenCert : list string -> error + Certificate.
Variable tls_Handshake : Conn -> Certificate -> string * (error + Conn).
Variable client_Do : Request -> Response -> Request * Response * option error.

Definition signFakeCert (host : string) : error + Certificate :=
  match SplitHostPort host with
  | inl err =>
      inl (Errorf ("get host's " ++ host ++ " domain with error ") err)
  | inr (domain, _) =>
      match GenCert [domain] with
      | inl err2 =>
          inl (Errorf ("sign " ++ domain ++ " fake cert with error ") err2)
      | inr cert => inr cert
      end
  end.

(** The closure [handShake]: the proxy handshake, then the TLS one.  It
    returns the client socket, the server name captured so far, and the
    decrypted connection or the error. *)
Definition handShake (c : Conn) (fakeTargetServerCert : Certificate)
  : Conn * string * (error + Conn) * list mitm_event :=
  (* make the proxy handshake *)
  let '(c, err) := sendHTTPSProxyStatusOK c in
  match err with
  | Some e => (c, EmptyString, inl (Errorf "proxy handshaking error: " e), [])
  | None =>
      (* make the tls handshake in https *)
      let '(targetServerName, conn) := tls_Handshake c fakeTargetServerCert in
      match conn with
      | inl e =>
          (c, targetServerName,
           inl (Errorf "fake server tls handshaking error: " e), [MitmClosed])
      | inr conn => (c, targetServerName, inr conn, [])
      end
  end.

(** [decryptConnect]; [resp] is the object [AcquireResponse] returns. *)
Definition decryptConnect (c : Conn) (hostWithPort : string)
    (sniffer : Sniffer) (pool : RequestPool) (resp : Response)
  : Conn * RequestPool * list mitm_event * option error :=
  (* make a fake target server's certificate *)
  match signFakeCert hostWithPort with
  | inl err =>
      let '(c, _) := sendHTTPSProxyStatusBadGateway c in
      (c, pool, [],
       Some (errorWrapper
               "error occurred when signing fake certificate for client" err))
  | inr fakeTargetServerCert =>
      (* perform the proxy hand shake and fake tls handshake *)
      let '(c, targetServerName, fakeServerConn, events) :=
        handShake c fakeTargetServerCert in
      let err :=
        if (String.length targetServerName =? 0)%nat
        then Some (ErrNew "client didn't provide a target server name")
        else match fakeServerConn with
             | inl e => Some e
             | inr _ => None
             end in
      match err, fakeServerConn with
      | Some err, _ =>
          (c, pool, events,
           Some (errorWrapper
                   "error occurred when handshaking with client" err))
      | None, inl e =>
          (c, pool, events,
           Some (errorWrapper
                   "error occurred when handshaking with client" e))
      | None, inr fakeServerConn =>
          (* convert fakeServerConn into a http request *)
          let reader := {| rbuf := []; und := c_in fakeServerConn |} in
          let '(req, pool) := AcquireRequest pool in
          let '(req, err) :=
            InitWithTLSClientReader req (Some reader) sniffer hostWithPort
                                    targetServerName in
          match err with
          | Some e =>
              (c, ReleaseRequest req pool, events ++ [MitmClosed],
               Some (errorWrapper
                       "fail to read MITMed https request header" e))
          | None =>
              let events := events ++ [MitmBound targetServerName] in
              (* convert fakeServerConn into a http response *)
              let '(resp, err) :=
                InitWithWriter resp (Some (c_out fakeServerConn)) sniffer in
              match err with
              | Some e =>
                  (c, ReleaseRequest req pool, events ++ [MitmClosed],
                   Some (errorWrapper
                           "fail to init MITMed https response header" e))
              | None =>
                  (* handle fake https client request *)
                  let '(req, resp, e) := client_Do req resp in
                  let events := events ++ [MitmForwarded; MitmClosed] in
                  match e with
                  | Some e =>
                      (c, ReleaseRequest req pool, events,
                       Some (errorWrapper
                               "fail to make MITMed https client request " e))
                  | None => (c, ReleaseRequest req pool, events, None)
                  end
              end
          end
      end
  end.

(** [handleHTTPSConns]: the MITM policy chooses between the two ways to
    serve a CONNECT; [Dial] is [transport.Dial]. *)
Variable ShouldDecryptHost : string -> bool.
Variable Dial : string -> error + Conn.

Inductive https_phase : Type :=
| Https_decrypted (r : Conn * RequestPool * list mitm_event * option error)
| Https_tunnel (p : tunnel_phase).

Definition handleHTTPSConns (c : Conn) (hostWithPort : string)
    (sniffer : Sniffer) (pool : RequestPool) (resp : Response) : https_phase :=
  if ShouldDecryptHost hostWithPort
  then Https_decrypted (decryptConnect c hostWithPort sniffer pool resp)
  else Https_tunnel (tunnelConnect_start (Dial hostWithPort) c hostWithPort).

End Mitm.

(** Collaborators for the examples: every host splits, every certificate
    is signed, the TLS handshake succeeds and the client hello carries the
    server name [sni]. *)
Definition sample_split (host : string) : error + (string * string) :=
  inr (host, "443"%string).

Definition sample_gencert (domains : list string) : error + unit := inr tt.

Definition sample_handshake (sni : string) (c : Conn) (_ : unit)
  : string * (error + Conn) :=
  (sni, inr {| c_in := c_in c; c_out := open_dst; c_closed := false |}).

Definition sample_do (req : Request) (resp : Response)
  : Request * Response * option error := (req, resp, None).

(** A client that has sent CONNECT and now a request on the TLS stream. *)
Definition mitm_conn : Conn :=
  {| c_in := [lit "GET / HTTP/1.1" ++ strCRLF ++ strCRLF];
     c_out := open_dst; c_closed := false |}.

(** * Further definitions: the rest of the package *)

(** A destination that takes three more bytes and then fails. *)
Definition narrow_dst : Writer := {| wbytes := []; wroom := Some 3 |}.

(** A chunked body cut inside its second chunk. *)
Definition cut_src : Reader :=
  {| rbuf := [];
     und := [ lit "5" ++ strCRLF ++ lit "hello" ++ strCRLF;
              lit "6" ++ strCRLF ++ lit " wo" ] |}.

Definition cut_chunks : list chunk :=
  [ {| chunk_digits := lit "5"; chunk_data := lit "hello" ++ strCRLF |} ].

Section MoreObjects.

Context {HP : HeaderPackage}.

(** [responsePool]: a [sync.Pool], here the stack of released objects. *)
Definition ResponsePool : Type := list Response.

Definition AcquireResponse (pool : ResponsePool) : Response * ResponsePool :=
  match pool with
  | [] => (Response_zero, [])
  | v :: pool' => (v, pool')
  end.

Definition ReleaseResponse (resp : Response) (pool : ResponsePool)
  : ResponsePool :=
  Response_Reset resp :: pool.


Definition responses_unbound (pool : ResponsePool) : Prop :=
  Forall (fun r => writer r = None) pool.

End MoreObjects.

(** A response bound to a destination, and a request bound to the
    message of scenario E1. *)
Definition e1_bytes : bytes :=
  lit "GET http://example.test/hello HTTP/1.1" ++ strCRLF ++
  lit "Host: example.test" ++ strCRLF ++
  lit "Content-Length: 5" ++ strCRLF ++ strCRLF ++ lit "hello".

Definition e1_request : Request :=
  fst (InitWithProxyReader Request_zero
         (Some {| rbuf := []; und := [e1_bytes] |}) []).

Definition e1_answer : Reader :=
  {| rbuf := [];
     und := [lit "HTTP/1.1 200 OK" ++ strCRLF ++ lit "Content-Length: 5"
             ++ strCRLF ++ strCRLF ++ lit "hello"] |}.

(** ** [Proxy.init] and the start of [Serve] *)

Section ProxyInit.

(** The pools, the logger and the certificate are foreign objects; a nil
    pointer or interface is [None].  [DefaultMitmCA] is
    [x509.DefaultMitmCA]. *)
Variables BufioPoolT LoggerT SnifferPoolT CertT : Type.
Variable DefaultMitmCA : option CertT.

(** [type Proxy struct], with [Client.BufioPool] and [Handler.MitmCACert]
    of the embedded structs. *)
Record Proxy : Type := mkProxy {
  BufioPool          : option BufioPoolT;
  Client_BufioPool   : option BufioPoolT;
  ProxyLogger        : option LoggerT;
  snifferPool        : option SnifferPoolT;
  Handler_MitmCACert : option CertT
}.

Definition Proxy_init (p : Proxy) : Proxy * option error :=
  match ProxyLogger p with
  | None => (p, Some (ErrNew "nil ProxyLogger provided"))
  | Some _ =>
      match BufioPool p with
      | None => (p, Some (ErrNew "nil bufio pool provided"))
      | Some _ =>
          match snifferPool p with
          | None => (p, Some (ErrNew "nil sniffer pool provided"))
          | Some _ =>
              let cert :=
                match Handler_MitmCACert p with
                | None => DefaultMitmCA
                | Some c => Some c
                end in
              let client_pool :=
                match Client_BufioPool p with
                | None => BufioPool p
                | Some b => Some b
                end in
              ({| BufioPool := BufioPool p;
                  Client_BufioPool := client_pool;
                  ProxyLogger := ProxyLogger p;
                  snifferPool := snifferPool p;
                  Handler_MitmCACert := cert |}, None)
          end
      end
  end.

(** [Serve] from its first statement: [init], then the accept loop. *)
Definition Proxy_Serve (p : Proxy) (accepts : list accept_result)
  : Proxy * list effect * option (option error) :=
  let '(p, e) := Proxy_init p in
  match e with
  | Some e => (p, [], Some (Some e))
  | None => let '(fx, r) := Serve accepts in (p, fx, r)
  end.

End ProxyInit.

(** A proxy with logger, pools and nothing else. *)
Definition plain_proxy : Proxy nat nat nat nat :=
  {| BufioPool := Some 1; Client_BufioPool := None; ProxyLogger := Some 2;
     snifferPool := Some 3; Handler_MitmCACert := None |}.

(** ** Accounting of the accept loop *)




(** ** The whole answer of [writeFastError] *)

Definition fast_error_response (date : string) (statusCode : nat)
    (msg : bytes) : bytes :=
  StatusLine statusCode ++
  lit "Connection: close" ++ strCRLF ++
  lit "Date: " ++ lit date ++ strCRLF ++
  lit "Content-Type: text/plain" ++ strCRLF ++
  lit "Content-Length: " ++ decimal (length msg) ++ strCRLF ++
  strCRLF ++ msg.

(** ** [NewSuperProxy] *)

(** [type SuperProxy struct] *)
Record SuperProxy : Type := mkSuperProxy {
  hostWithPort : string;
  proxyHeader  : string;
  secure       : bool
}.

Definition crlf_string : string :=
  String (ascii_of_nat 13) (String (ascii_of_nat 10) EmptyString).

Section SuperProxies.

(** [base64.StdEncoding.EncodeToString] of the standard library. *)
Variable base64 : string -> string.

(** [NewSuperProxy]; [port] is a [uint16]. *)
Definition NewSuperProxy (host : string) (port : nat) (ssl : bool)
    (user pass : string) : option SuperProxy * option error :=
  let basicAuth (username password : string) :=
    base64 (username ++ ":" ++ password)%string in
  if (String.length host =? 0)%nat
  then (None, Some (ErrNew "nil host provided"))
  else if (port =? 0)%nat
  then (None, Some (ErrNew "nil port provided"))
  else
    let hp := (host ++ ":" ++ NilZero.string_of_uint (Nat.to_uint port))%string in
    let header :=
      if (0 <? String.length user)%nat && (0 <? String.length pass)%nat
      then ("Proxy-Authorization: Basic " ++ basicAuth user pass
            ++ crlf_string)%string
      else EmptyString in
    (Some {| hostWithPort := hp; proxyHeader := header; secure := ssl |}, None).

End SuperProxies.

(** ** [handleHTTPConns] *)

Section HTTPHandler.

Context {HP : HeaderPackage}.

(** [h.URLProxy], the raw URI of the request line, [req.SetProxy] and
    [client.Do] are outside the sources at hand. *)
Variable URLProxy : bytes -> option SuperProxy.
Variable RawURI : RequestLine -> bytes.
Variable SetProxy : Request -> option SuperProxy -> Request.
Variable client_Do : Request -> Response -> Request * Response * option error.

(** [handleHTTPConns]; [rpool] is the response pool.  The writer is the
    buffered writer on [c]; what the response wrote is on [c] once the
    deferred [Flush] has run. *)
Definition handleHTTPConns (c : Conn) (req : Request) (sniffer : Sniffer)
    (rpool : ResponsePool)
  : Conn * Request * ResponsePool * option error :=
  (* set requests proxy *)
  let req := SetProxy req (URLProxy (RawURI (reqLine req))) in
  (* convert c into a http response *)
  let w := c_out c in
  let '(resp, rpool) := AcquireResponse rpool in
  let '(resp, err) := InitWithWriter resp (Some w) sniffer in
  match err with
  | Some e => (c, req, ReleaseResponse resp rpool, Some e)
  | None =>
      (* handle http proxy request *)
      let '(req, resp, err) := client_Do req resp in
      let c :=
        match writer resp with
        | Some w => {| c_in := c_in c; c_out := w; c_closed := c_closed c |}
        | None => c
        end in
      (c, req, ReleaseResponse resp rpool, err)
  end.

End HTTPHandler.

(** ** More on the accept loop *)


(** ** Facts about the buffered reader and writer *)

Lemma fill_loop_content tries u c u' e :
  fill_loop tries u = (c, u', e) ->
  concat u = c ++ concat u' /\ (e = None -> c <> []) /\ (e <> None -> c = []).
Proof.
  revert u c u' e.
  induction tries as [|t IH]; intros u c u' e H; simpl in H.
  - inversion H; subst. repeat split; intros; congruence.
  - destruct u as [|x rest].
    + inversion H; subst. repeat split; intros; congruence.
    + destruct x as [|b x'].
      * simpl. apply IH. exact H.
      * inversion H; subst. repeat split; intros; congruence.
Qed.

Lemma fill_content r r' e :
  fill r = (r', e) ->
  content r' = content r /\
  (e = None -> Buffered r < Buffered r') /\
  (e <> None -> rbuf r' = rbuf r).
Proof.
  unfold fill, content, Buffered.
  destruct (fill_loop maxConsecutiveEmptyReads (und r)) as [[c u] e0] eqn:E.
  intros H; inversion H; subst; clear H; simpl.
  apply fill_loop_content in E. destruct E as (Hc & Hn & He).
  repeat split.
  - rewrite Hc, app_assoc. reflexivity.
  - intros He0. specialize (Hn He0). rewrite length_app.
    destruct c; [congruence | simpl; lia].
  - intros He0. rewrite (He He0), app_nil_r. reflexivity.
Qed.

(** [Peek(1)] never loses a byte, and answers with no byte exactly when
    the buffer is still empty afterwards. *)
Lemma Peek1_spec r b e r' :
  Peek 1 r = (b, e, r') ->
  content r' = content r /\
  (length b = 0 -> rbuf r' = []) /\
  (length b <> 0 -> rbuf r' <> []).
Proof.
  unfold Peek. simpl. unfold Buffered.
  destruct (rbuf r) as [|x xs] eqn:Hb; simpl.
  - destruct (fill r) as [r1 e1] eqn:Hf.
    pose proof (fill_content _ Hf) as (Hc & _ & _).
    assert (Hcase : (let '(r'0, e0) :=
                       match e1 with Some _ => (r1, e1) | None => (r1, None) end
                     in if 1 <=? length (rbuf r'0)
                        then (firstn 1 (rbuf r'0), @None error, r'0)
                        else (rbuf r'0, e0, r'0)) = (b, e, r') ->
                    r' = r1 /\ (length b = 0 -> rbuf r1 = []) /\
                    (length b <> 0 -> rbuf r1 <> [])).
    { destruct e1; destruct (rbuf r1) as [|y ys] eqn:Hr1; simpl;
        intros H; inversion H; subst; rewrite ?Hr1; simpl;
        repeat split; try congruence; try discriminate; try lia. }
    intros H. apply Hcase in H. destruct H as (-> & H0 & H1). auto.
  - rewrite Hb. simpl. intros H; inversion H; subst; simpl.
    repeat split; intros; try discriminate; congruence.
Qed.

Lemma fill_loop_no_stall tries u c u' e :
  Forall (fun c : bytes => c <> []) u ->
  fill_loop (S tries) u = (c, u', e) ->
  Forall (fun c : bytes => c <> []) u' /\ (e <> None -> u' = []).
Proof.
  intros HF H. simpl in H. destruct u as [|x rest].
  - inversion H; subst. split; auto.
  - inversion HF; subst. destruct x as [|b x']; [congruence|].
    inversion H; subst. split; [assumption | congruence].
Qed.

Lemma fill_no_stall r r' e :
  no_stall r -> fill r = (r', e) ->
  no_stall r' /\ (e <> None -> und r' = []).
Proof.
  unfold fill, no_stall, maxConsecutiveEmptyReads. intros HF.
  destruct (fill_loop 100 (und r)) as [[c u] e0] eqn:E.
  intros H; inversion H; subst; clear H; simpl.
  eapply fill_loop_no_stall; eauto.
Qed.

Lemma Peek1_no_stall r b e r' :
  no_stall r -> Peek 1 r = (b, e, r') ->
  no_stall r' /\ (length b = 0 -> content r' = []).
Proof.
  intros HF. unfold Peek. simpl. unfold Buffered.
  destruct (rbuf r) as [|x xs] eqn:Hb; simpl.
  - destruct (fill r) as [r1 e1] eqn:Hf.
    pose proof (fill_no_stall HF Hf) as (Hns & Hu).
    pose proof (fill_content _ Hf) as (_ & Hlt & _).
    unfold Buffered in Hlt. rewrite Hb in Hlt. simpl in Hlt.
    destruct e1 as [e1|].
    + destruct (rbuf r1) as [|y ys] eqn:Hr1; simpl;
        intros H; inversion H; subst; split; auto; try discriminate.
      intros _. unfold content. rewrite Hr1, Hu by discriminate. reflexivity.
    + specialize (Hlt eq_refl).
      destruct (rbuf r1) as [|y ys] eqn:Hr1; simpl in *; [lia|].
      intros H; inversion H; subst; split; auto; discriminate.
  - rewrite Hb. simpl. intros H; inversion H; subst.
    split; [assumption | discriminate].
Qed.

(** [Peek(Buffered())] is the whole buffer and reads nothing. *)
Lemma Peek_Buffered r : Peek (Buffered r) r = (rbuf r, None, r).
Proof.
  unfold Peek.
  assert (H : Peek_loop (Buffered r) (Buffered r) r = (r, None)).
  { destruct (Buffered r) eqn:E; simpl; [reflexivity|].
    rewrite E. rewrite Nat.leb_refl. reflexivity. }
  rewrite H, Nat.leb_refl. unfold Buffered. rewrite firstn_all. reflexivity.
Qed.

(** Discarding no more than what is buffered just advances the buffer. *)
Lemma Discard_buffered n r :
  n <= Buffered r ->
  Discard n r = (n, None, {| rbuf := skipn n (rbuf r); und := und r |}).
Proof.
  intros Hn. unfold Discard.
  destruct n as [|m]; simpl Nat.eqb; cbv iota.
  - destruct r; reflexivity.
  - cbn [Discard_loop].
    destruct (Buffered r =? 0) eqn:E0.
    + apply Nat.eqb_eq in E0. lia.
    + rewrite Nat.min_r by lia. rewrite Nat.sub_diag. simpl Nat.eqb. cbv iota.
      rewrite Nat.sub_0_r. reflexivity.
Qed.

Lemma Write_spec p w n e w' :
  Write p w = (n, e, w') ->
  wbytes w' = wbytes w ++ firstn n p /\ n <= length p /\
  (e = None -> n = length p) /\
  (wroom w = None -> e = None /\ wroom w' = None).
Proof.
  unfold Write. destruct (wroom w) as [k|].
  - destruct (length p <=? k) eqn:E; intros H; inversion H; subst; simpl.
    + rewrite firstn_all. repeat split; auto; discriminate.
    + apply Nat.leb_gt in E. repeat split; try lia; discriminate.
  - intros H; inversion H; subst; simpl. rewrite firstn_all. auto.
Qed.

Lemma sniffer_body_Body b s :
  sniffer_body (sniff_Body b s) = sniffer_body s ++ b.
Proof.
  unfold sniff_Body. induction s as [|x s IH]; simpl.
  - rewrite app_nil_r. reflexivity.
  - destruct x; rewrite IH; try reflexivity. rewrite app_assoc. reflexivity.
Qed.

(** ** The fixed-size copier *)

Lemma copyBodyFixedSize_loop_post fuel :
  forall src dst N sn,
    (0 < N)%Z -> length (content src) < fuel ->
    fixed_post src dst sn N (copyBodyFixedSize_loop fuel src dst N sn).
Proof.
  induction fuel as [|fuel IH]; intros src dst N sn HN Hfuel; [lia|].
  cbn [copyBodyFixedSize_loop].
  destruct (Peek 1 src) as [[b1 e1] src1] eqn:HP.
  pose proof (Peek1_spec _ HP) as (Hc1 & Hz & Hnz).
  assert (Hst : no_stall src ->
                no_stall src1 /\ (length b1 = 0 -> content src1 = [])).
  { intros Hs. exact (Peek1_no_stall Hs HP). }
  clear HP.
  destruct (length b1 =? 0) eqn:E1.
  - (* the source has nothing more: io.EOF *)
    apply Nat.eqb_eq in E1. unfold fixed_post.
    exists [], []. simpl. rewrite !app_nil_r.
    repeat split; auto; try discriminate; try lia.
    all: match goal with
         | Hs : no_stall _ |- _ => destruct (Hst Hs); auto
         end.
  - apply Nat.eqb_neq in E1. specialize (Hnz E1). clear Hz.
    rewrite Peek_Buffered.
    destruct (rbuf src1) as [|x xs] eqn:Hb; [congruence|].
    set (b := x :: xs) in *.
    assert (Hlen : 0 < length b) by (unfold b; simpl; lia).
    replace (length b =? 0) with false by (symmetry; apply Nat.eqb_neq; lia).
    cbn [isSome orb].
    set (k0 := if (N <=? Z.of_nat (length b))%Z then N else Z.of_nat (length b)).
    assert (Hk0 : (0 < k0 <= N)%Z /\ (k0 <= Z.of_nat (length b))%Z).
    { unfold k0. destruct (N <=? Z.of_nat (length b))%Z eqn:E.
      - apply Z.leb_le in E. lia.
      - apply Z.leb_gt in E. lia. }
    replace (k0 <? 0)%Z with false by (symmetry; apply Z.ltb_ge; lia).
    set (k := Z.to_nat k0).
    assert (Hk : 0 < k <= length b /\ Z.of_nat k = k0) by (unfold k; lia).
    destruct (Write (firstn k b) dst) as [[nw werr] dst1] eqn:HW.
    apply Write_spec in HW. destruct HW as (Hwb & Hnw & Hwok & Hwnone).
    rewrite length_firstn, Nat.min_l in Hnw, Hwok by lia.
    set (src3 := {| rbuf := skipn k b; und := und src1 |}).
    assert (Hsrc : content src = firstn k b ++ content src3).
    { rewrite <- Hc1. unfold content, src3. simpl. rewrite Hb. fold b.
      rewrite app_assoc, firstn_skipn. reflexivity. }
    assert (Hst3 : no_stall src -> no_stall src3).
    { intros Hs. apply Hst in Hs. apply Hs. }
    destruct werr as [e|].
    + (* the write failed: nothing is discarded from the source *)
      unfold fixed_post. exists [], (firstn nw (firstn k b)). simpl.
      rewrite app_nil_r, Hc1.
      repeat split; auto; try discriminate.
      all: try (rewrite length_firstn, length_firstn; lia).
      all: try (right; right; eexists; reflexivity).
      all: match goal with
           | Hn : wroom _ = None |- _ => destruct (Hwnone Hn); discriminate
           | Hs : no_stall _ |- _ => destruct (Hst Hs); auto
           end.
    + specialize (Hwok eq_refl). subst nw.
      rewrite Nat.eqb_refl. cbn [negb].
      rewrite firstn_all2 in Hwb by (rewrite length_firstn; lia).
      rewrite Discard_buffered by (unfold Buffered; rewrite Hb; fold b; lia).
      rewrite Hb. fold b. fold src3.
      destruct (N - k0 =? 0)%Z eqn:Efin.
      * (* the budget is met *)
        apply Z.eqb_eq in Efin. unfold fixed_post.
        exists (firstn k b), []. rewrite !app_nil_r.
        rewrite sniffer_body_Body, length_firstn, Nat.min_l by lia.
        simpl length. rewrite Nat.add_0_r.
        repeat split; auto; try discriminate; try lia.
        all: match goal with
             | Hn : wroom _ = None |- _ => apply (Hwnone Hn)
             end.
      * (* more is needed: next iteration on the shortened source *)
        apply Z.eqb_neq in Efin.
        assert (Hfuel3 : length (content src3) < fuel).
        { apply (f_equal (@length _)) in Hsrc.
          rewrite length_app, length_firstn, Nat.min_l in Hsrc by lia. lia. }
        specialize (IH src3 dst1 (N - k0)%Z (sniff_Body (firstn k b) sn)
                       ltac:(lia) Hfuel3).
        unfold fixed_post in *.
        destruct (copyBodyFixedSize_loop fuel src3 dst1 (N - k0)
                    (sniff_Body (firstn k b) sn)) as [[[src' dst'] sn'] out].
        destruct IH as (c & ex & Hc & Hw & Hs & Hle & Hp & Hf & Hok & Heof
                        & Hnone & Hstall & Hout).
        exists (firstn k b ++ c), ex.
        rewrite Hsrc, Hc, Hw, Hwb, Hs, sniffer_body_Body, <- !app_assoc.
        rewrite !length_app, length_firstn, Nat.min_l in * by lia.
        repeat split; auto; try lia.
        all: try match goal with
                 | Ho : _ = Return None |- _ => destruct (Hok Ho); auto; lia
                 | Hs : no_stall _, Ho : _ = Return (Some EOF) |- _ =>
                     apply (proj2 (Hstall (Hst3 Hs)) Ho)
                 | Ho : _ = Return (Some EOF) |- _ =>
                     destruct (Heof Ho) as (? & ? & ?); auto; lia
                 | Hn : wroom _ = None |- _ =>
                     destruct (Hwnone Hn) as [_ Hd]; apply (Hnone Hd)
                 | Hs : no_stall _ |- _ => apply (Hstall (Hst3 Hs))
                 end.
Qed.

Lemma copyBodyFixedSize_post src dst N sn :
  (0 < N)%Z -> fixed_post src dst sn N (copyBodyFixedSize src dst N sn).
Proof.
  intros HN. unfold copyBodyFixedSize.
  apply copyBodyFixedSize_loop_post; [exact HN | lia].
Qed.

(** A source that ends after two bytes, asked for five: the copier
    forwards the two bytes and returns the plain [io.EOF] value. *)
Example copyBodyFixedSize_short_source :
  copyBodyFixedSize {| rbuf := lit "ab"; und := [] |}
                    {| wbytes := []; wroom := None |} 5 []
  = (({| rbuf := []; und := [] |},
      {| wbytes := lit "ab"; wroom := None |},
      [SBody (lit "ab")]),
     Return (Some EOF)).
Proof. reflexivity. Qed.

(** C1, as stated, fails: when the source ends before the budget is met
    the copier does not report [io.ErrUnexpectedEOF].  Here the budget is 5
    and the source holds 2 bytes. *)
Lemma copyBodyFixedSize_not_UnexpectedEOF :
  let src := {| rbuf := lit "ab"; und := [] |} in
  let dst := {| wbytes := []; wroom := None |} in
  (Z.of_nat (length (content src)) < 5)%Z /\
  snd (copyBodyFixedSize src dst 5 []) = Return (Some EOF) /\
  snd (copyBodyFixedSize src dst 5 []) <> Return (Some ErrUnexpectedEOF).
Proof.
  cbv zeta. split; [vm_compute; reflexivity|].
  split; [reflexivity | vm_compute; discriminate].
Qed.

(** C1 (amended): for every content length [N > 0], [copyBodyFixedSize]
    consumes at most [N] bytes of the source and writes at most [N] bytes;
    when it succeeds it has consumed exactly [N] bytes and written exactly
    those bytes; when the source holds fewer than [N] bytes and the
    destination accepts every write, it returns [io.EOF] (never
    [io.ErrUnexpectedEOF]), having forwarded fewer than [N] bytes. *)
Theorem copyBodyFixedSize_budget src dst sn N :
  (0 < N)%Z ->
  let '((src', dst', sn'), out) := copyBodyFixedSize src dst N sn in
  exists consumed written : bytes,
    content src = consumed ++ content src' /\
    wbytes dst' = wbytes dst ++ written /\
    (Z.of_nat (length consumed) <= N)%Z /\
    (Z.of_nat (length written) <= N)%Z /\
    (out = Return None ->
     written = consumed /\ Z.of_nat (length consumed) = N) /\
    (out = Return (Some EOF) ->
     written = consumed /\ (Z.of_nat (length consumed) < N)%Z) /\
    ((Z.of_nat (length (content src)) < N)%Z -> wroom dst = None ->
     out = Return (Some EOF)) /\
    out <> Return (Some ErrUnexpectedEOF).
Proof.
  intros HN. pose proof (copyBodyFixedSize_post src dst sn HN) as H.
  unfold fixed_post in H.
  destruct (copyBodyFixedSize src dst N sn) as [[[src' dst'] sn'] out].
  destruct H as (c & ex & Hc & Hw & Hs & Hle & Hp & Hf & Hok & Heof
                 & Hnone & Hstall & Hout).
  exists c, (c ++ ex). rewrite length_app in *.
  repeat split; auto; try lia.
  - destruct (Hok H) as [-> _]. apply app_nil_r.
  - apply (Hok H).
  - destruct (Heof H) as (-> & _ & _). apply app_nil_r.
  - apply (Heof H).
  - intros Hshort Hroom. destruct (Hnone Hroom) as [_ [Ho|Ho]]; [|exact Ho].
    destruct (Hok Ho) as [_ Hn].
    apply (f_equal (@length _)) in Hc. rewrite length_app in Hc. lia.
  - destruct Hout as [->|[->|[e ->]]]; discriminate.
Qed.

Lemma copyBodyFixedSize_budget_witness :
  (0 < 5)%Z /\
  let '((src', dst', sn'), out) :=
    copyBodyFixedSize hello_src open_dst 5 [] in
  exists consumed written : bytes,
    content hello_src = consumed ++ content src' /\
    wbytes dst' = wbytes open_dst ++ written /\
    (Z.of_nat (length consumed) <= 5)%Z /\
    (Z.of_nat (length written) <= 5)%Z /\
    (out = Return None ->
     written = consumed /\ Z.of_nat (length consumed) = 5%Z) /\
    (out = Return (Some EOF) ->
     written = consumed /\ (Z.of_nat (length consumed) < 5)%Z) /\
    ((Z.of_nat (length (content hello_src)) < 5)%Z -> wroom open_dst = None ->
     out = Return (Some EOF)) /\
    out <> Return (Some ErrUnexpectedEOF).
Proof.
  split; [reflexivity|].
  exact (@copyBodyFixedSize_budget hello_src open_dst [] 5%Z eq_refl).
Defined.

(** ** Reading bytes one at a time *)

Lemma ReadByte_content r c tl :
  no_stall r -> content r = c :: tl ->
  exists r', ReadByte r = (c, None, r') /\ content r' = tl /\ no_stall r'.
Proof.
  intros Hns Hc. unfold ReadByte.
  destruct (rbuf r) as [|x xs] eqn:Hb.
  - destruct (fill r) as [r1 e] eqn:Hf.
    pose proof (fill_content _ Hf) as (Hc1 & Hlt & _).
    pose proof (fill_no_stall Hns Hf) as (Hns1 & Hu).
    destruct (rbuf r1) as [|y ys] eqn:Hb1.
    + exfalso. destruct e as [e|].
      * rewrite Hc in Hc1. unfold content in Hc1.
        rewrite Hb1, Hu in Hc1 by discriminate. discriminate Hc1.
      * specialize (Hlt eq_refl). unfold Buffered in Hlt.
        rewrite Hb, Hb1 in Hlt. simpl in Hlt. lia.
    + rewrite Hc in Hc1. unfold content in Hc1. rewrite Hb1 in Hc1.
      simpl in Hc1. inversion Hc1; subst.
      eexists. split; [reflexivity|]. split; [reflexivity | exact Hns1].
  - unfold content in Hc. rewrite Hb in Hc. simpl in Hc. inversion Hc; subst.
    eexists. split; [reflexivity|]. split; [reflexivity | exact Hns].
Qed.

Lemma UnreadByte_content c r :
  content (UnreadByte c r) = c :: content r /\
  (no_stall r -> no_stall (UnreadByte c r)).
Proof. split; [reflexivity | auto]. Qed.

Lemma is_hex_CR : is_hex CR = false.
Proof. reflexivity. Qed.

(** The size digits are read up to the first byte that is neither a digit
    nor the start of an extension; that byte stays in the source. *)
Lemma readHexInt_loop_digits ds :
  forall fuel i n r buffer c tl,
    forallb is_hex ds = true ->
    is_hex c = false -> Byte.eqb c semicolon = false ->
    content r = ds ++ c :: tl -> no_stall r ->
    length (content r) < fuel -> 0 < i + length ds ->
    exists r',
      readHexInt_loop fuel i n r buffer
        = ((r', buffer ++ ds), (fold_left hex_step ds n, Return None)) /\
      content r' = c :: tl /\ no_stall r'.
Proof.
  induction ds as [|d ds IH]; intros fuel i n r buffer c tl Hds Hc Hsc Hr Hns Hf Hi.
  - simpl in *. destruct fuel as [|fuel]; [lia|]. cbn [readHexInt_loop].
    destruct (ReadByte_content Hns Hr) as (r1 & -> & Hc1 & Hns1).
    rewrite Hc, Hsc.
    replace (i =? 0) with false by (symmetry; apply Nat.eqb_neq; lia).
    exists (UnreadByte c r1). rewrite app_nil_r.
    split; [reflexivity|]. split.
    + unfold UnreadByte, content in *. simpl. rewrite Hc1. reflexivity.
    + exact Hns1.
  - simpl in Hds. apply andb_true_iff in Hds. destruct Hds as [Hd Hds].
    destruct fuel as [|fuel]; [lia|]. cbn [readHexInt_loop].
    simpl in Hr.
    destruct (ReadByte_content Hns Hr) as (r1 & -> & Hc1 & Hns1).
    rewrite Hd.
    assert (Hf1 : length (content r1) < fuel).
    { rewrite Hr in Hf. rewrite Hc1. simpl in Hf. lia. }
    destruct (IH fuel (S i) (hex_step n d) r1 (buffer ++ [d]) c tl
                Hds Hc Hsc Hc1 Hns1 Hf1 ltac:(lia)) as (r' & -> & Hc' & Hns').
    exists r'. rewrite <- app_assoc. simpl. auto.
Qed.

(** A size line of hex digits followed by CRLF is parsed to its value and
    rebuilt, byte for byte, in the scratch buffer. *)
Lemma parseChunkSize_line ds r tl :
  size_line ds -> content r = ds ++ strCRLF ++ tl -> no_stall r ->
  exists r',
    parseChunkSize r [] = ((r', ds ++ strCRLF), (hexval ds, Return None)) /\
    content r' = tl /\ no_stall r'.
Proof.
  intros [Hne Hds] Hr Hns. unfold parseChunkSize, readHexInt.
  assert (Hpos : 0 < 0 + length ds) by (destruct ds; [congruence | simpl; lia]).
  destruct (@readHexInt_loop_digits ds (S (length (content r))) 0 0%Z r []
              CR (LF :: tl) Hds is_hex_CR eq_refl Hr Hns ltac:(lia) Hpos)
    as (r1 & -> & Hc1 & Hns1).
  destruct (ReadByte_content Hns1 Hc1) as (r2 & -> & Hc2 & Hns2).
  simpl negb. cbv iota.
  destruct (ReadByte_content Hns2 Hc2) as (r3 & -> & Hc3 & Hns3).
  simpl negb. cbv iota.
  exists r3. auto.
Qed.

(** With the bytes at hand and a destination that accepts them, the
    fixed-size copier forwards exactly its budget. *)
Lemma copyBodyFixedSize_exact r w s N data rest :
  (0 < N)%Z -> Z.of_nat (length data) = N ->
  content r = data ++ rest -> no_stall r -> wroom w = None ->
  exists r' w' s',
    copyBodyFixedSize r w N s = ((r', w', s'), Return None) /\
    content r' = rest /\ no_stall r' /\
    wbytes w' = wbytes w ++ data /\ wroom w' = None /\
    sniffer_body s' = sniffer_body s ++ data.
Proof.
  intros HN Hlen Hr Hns Hw.
  pose proof (copyBodyFixedSize_post r w s HN) as H. unfold fixed_post in H.
  destruct (copyBodyFixedSize r w N s) as [[[r' w'] s'] out].
  destruct H as (c & ex & Hc & Hwb & Hs & Hle & Hp & Hf & Hok & Heof
                 & Hnone & Hstall & Hout).
  destruct (Hnone Hw) as [Hw' Ho]. destruct (Hstall Hns) as [Hns' Hend].
  assert (Hsuccess : out = Return None).
  { destruct Ho as [Ho|Ho]; [exact Ho|]. exfalso.
    destruct (Heof Ho) as (_ & _ & Hlt). specialize (Hend Ho).
    rewrite Hend, app_nil_r in Hc. rewrite Hr in Hc. subst c.
    rewrite length_app in Hlt. lia. }
  destruct (Hok Hsuccess) as [-> Hcn]. rewrite app_nil_r in Hwb.
  assert (Hsplit : c = data /\ content r' = rest).
  { rewrite Hr in Hc. symmetry in Hc.
    apply app_eq_app in Hc. destruct Hc as (l & [[H1 H2]|[H1 H2]]).
    - assert (l = []) by
        (apply (f_equal (@length _)) in H1; rewrite length_app in H1;
         destruct l; [reflexivity | simpl in H1; lia]).
      subst l. rewrite app_nil_r in H1. simpl in H2. auto.
    - assert (l = []) by
        (apply (f_equal (@length _)) in H1; rewrite length_app in H1;
         destruct l; [reflexivity | simpl in H1; lia]).
      subst l. rewrite app_nil_r in H1. simpl in H2. auto. }
  exists r', w', s'. subst out.
  destruct Hsplit as [-> ->]. auto 10.
Qed.

(** ** The chunked copier *)

Lemma wrap_int_small z : (0 <= z <= MaxInt64)%Z -> wrap_int z = z.
Proof.
  unfold wrap_int, MaxInt64. intros H.
  change (2 ^ 63)%Z with 9223372036854775808%Z.
  change (2 ^ 64)%Z with 18446744073709551616%Z.
  rewrite Z.mod_small by lia. lia.
Qed.

Lemma Write_open p w :
  wroom w = None ->
  Write p w = (length p, None, {| wbytes := wbytes w ++ p; wroom := None |}).
Proof. intros H. unfold Write. rewrite H. reflexivity. Qed.

(** One round on a chunk of non-zero size: the size line and the [n + 2]
    bytes after it go to the destination and to the sniffer, and the loop
    goes on with what follows. *)
Lemma copyBodyChunked_round c rest fuel src dst buffer sn :
  data_chunk c -> content src = chunk_wire c ++ rest ->
  no_stall src -> wroom dst = None ->
  exists src1 dst1 sn1,
    copyBodyChunked_loop (S fuel) src dst buffer sn
      = copyBodyChunked_loop fuel src1 dst1 (chunk_digits c ++ strCRLF) sn1 /\
    content src1 = rest /\ no_stall src1 /\
    wbytes dst1 = wbytes dst ++ chunk_wire c /\ wroom dst1 = None /\
    sniffer_body sn1 = sniffer_body sn ++ chunk_wire c.
Proof.
  intros (Hline & Hsize & Hdata) Hr Hns Hw.
  cbn [copyBodyChunked_loop]. unfold chunk_wire in *.
  rewrite <- !app_assoc in Hr.
  destruct (@parseChunkSize_line _ src _ Hline Hr Hns) as (r1 & -> & Hc1 & Hns1).
  rewrite Write_open by exact Hw.
  change (Z.of_nat (length strCRLF)) with 2%Z.
  rewrite wrap_int_small by lia.
  set (w1 := {| wbytes := wbytes dst ++ chunk_digits c ++ strCRLF;
                wroom := None |}).
  destruct (@copyBodyFixedSize_exact r1 w1
              (sniff_Body (chunk_digits c ++ strCRLF) sn)
              (hexval (chunk_digits c) + 2)%Z (chunk_data c) rest
              ltac:(lia) Hdata Hc1 Hns1 eq_refl)
    as (r2 & w2 & s2 & -> & Hc2 & Hns2 & Hw2 & Hroom2 & Hs2).
  replace (hexval (chunk_digits c) =? 0)%Z with false
    by (symmetry; apply Z.eqb_neq; lia).
  exists r2, w2, s2. split; [reflexivity|].
  rewrite Hw2, Hs2, sniffer_body_Body. unfold w1. simpl.
  rewrite <- !app_assoc. auto 10.
Qed.


(** Any number of rounds on chunks of non-zero size. *)
Lemma copyBodyChunked_prefix cs :
  forall rest fuel src dst buffer sn,
    Forall data_chunk cs ->
    content src = flat_map chunk_wire cs ++ rest ->
    no_stall src -> wroom dst = None ->
    exists src1 dst1 buffer1 sn1,
      copyBodyChunked_loop (length cs + fuel) src dst buffer sn
        = copyBodyChunked_loop fuel src1 dst1 buffer1 sn1 /\
      content src1 = rest /\ no_stall src1 /\
      wbytes dst1 = wbytes dst ++ flat_map chunk_wire cs /\ wroom dst1 = None /\
      sniffer_body sn1 = sniffer_body sn ++ flat_map chunk_wire cs.
Proof.
  induction cs as [|c cs IH]; intros rest fuel src dst buffer sn Hcs Hr Hns Hw.
  - simpl in *. exists src, dst, buffer, sn. rewrite !app_nil_r. auto 10.
  - inversion Hcs as [|? ? Hc Hcs']; subst. simpl in Hr.
    rewrite <- app_assoc in Hr.
    destruct (@copyBodyChunked_round c _ (length cs + fuel) src dst buffer sn
                Hc Hr Hns Hw)
      as (src1 & dst1 & sn1 & Heq & Hc1 & Hns1 & Hw1 & Hroom1 & Hs1).
    destruct (IH rest fuel src1 dst1 (chunk_digits c ++ strCRLF) sn1
                Hcs' Hc1 Hns1 Hroom1)
      as (src2 & dst2 & buf2 & sn2 & Heq2 & Hc2 & Hns2 & Hw2 & Hroom2 & Hs2).
    exists src2, dst2, buf2, sn2.
    simpl length. rewrite Nat.add_succ_l, Heq, Heq2.
    rewrite Hw2, Hw1, Hs2, Hs1. simpl flat_map. rewrite <- !app_assoc.
    auto 10.
Qed.

Lemma chunks_shorter_than_wire cs rest :
  length cs + length rest <= length (flat_map chunk_wire cs ++ rest).
Proof.
  induction cs as [|c cs IH]; simpl; [lia|].
  unfold chunk_wire at 1. rewrite <- !app_assoc, !length_app.
  rewrite !length_app in IH. simpl. lia.
Qed.

(** The fuel of [copyBodyChunked] pays for the rounds on [cs] and leaves
    at least one round. *)
Lemma copyBodyChunked_fuel cs rest src :
  content src = flat_map chunk_wire cs ++ rest ->
  exists k, S (length (content src)) = length cs + S k.
Proof.
  intros Hr. pose proof (chunks_shorter_than_wire cs rest) as H.
  rewrite <- Hr in H. exists (length (content src) - length cs). lia.
Qed.

(** *** Malformed size lines *)











(** ** The identity copier and the dispatch of [copyBody] *)






(** ** Request and Response objects *)

Section ObjectFacts.

Context {HP : HeaderPackage}.

(** A failed initialisation leaves every field but the request line as it
    was. *)
Lemma initWithReader_failure r rd sn t h n r' e :
  initWithReader r rd sn t h n = (r', Some e) ->
  reader r' = reader r /\ isTLS r' = isTLS r /\
  tlsServerName r' = tlsServerName r /\ req_sniffer r' = req_sniffer r /\
  req_header r' = req_header r.
Proof.
  unfold initWithReader.
  destruct (reader r) as [x|] eqn:Hr.
  - intros H; inversion H; subst. rewrite Hr. auto.
  - destruct rd as [rd0|].
    + destruct (t && (String.length n =? 0))%bool.
      * intros H; inversion H; subst. rewrite Hr. auto.
      * destruct (RequestLine_Parse (reqLine r) rd0 h) as [[l rd1] [e1|]].
        -- destruct e1; intros H; inversion H; subst; simpl; auto.
        -- intros H; inversion H.
    + intros H; inversion H; subst. rewrite Hr. auto.
Qed.

(** A successful initialisation starts from an unbound request, binds the
    reader the parser hands back and records the TLS settings. *)
Lemma initWithReader_success r rd sn t h n r' :
  initWithReader r rd sn t h n = (r', None) ->
  reader r = None /\ reader r' <> None /\ rd <> None /\
  isTLS r' = t /\ tlsServerName r' = n /\ req_sniffer r' = sn /\
  (t = true -> n <> EmptyString).
Proof.
  unfold initWithReader.
  destruct (reader r) as [x|] eqn:Hr; [intros H; inversion H|].
  destruct rd as [rd0|]; [|intros H; inversion H].
  destruct (t && (String.length n =? 0))%bool eqn:Ht; [intros H; inversion H|].
  destruct (RequestLine_Parse (reqLine r) rd0 h) as [[l rd1] [e1|]].
  - destruct e1; intros H; inversion H.
  - intros H; inversion H; subst; simpl.
    repeat split; auto; try discriminate.
    intros -> ->. simpl in Ht. discriminate.
Qed.

(** The four ways to fail. *)
Lemma initWithReader_rejects r rd sn t h n :
  reader r <> None \/ rd = None \/ (t = true /\ n = EmptyString) \/
  (exists rd0 l rd1 e,
      rd = Some rd0 /\
      RequestLine_Parse (reqLine r) rd0 h = (l, rd1, Some e)) ->
  snd (initWithReader r rd sn t h n) <> None.
Proof.
  unfold initWithReader. intros H.
  destruct (reader r) as [x|] eqn:Hr; [simpl; discriminate|].
  destruct rd as [rd0|]; [|simpl; discriminate].
  destruct (t && (String.length n =? 0))%bool eqn:Ht; [simpl; discriminate|].
  destruct H as [H|[H|[[-> ->]|(x & l & rd1 & e & Hx & Hp)]]];
    try congruence; try discriminate.
  inversion Hx; subst. rewrite Hp. destruct e; simpl; discriminate.
Qed.

Lemma tls_invariant_step r op :
  (isTLS r = true -> tlsServerName r <> EmptyString) ->
  isTLS (apply_op r op) = true -> tlsServerName (apply_op r op) <> EmptyString.
Proof.
  intros Hinv. destruct op as [rd sn t h n|]; simpl; [|exact Hinv].
  destruct (initWithReader r rd sn t h n) as [r' [e|]] eqn:E; simpl.
  - destruct (initWithReader_failure _ _ _ _ _ _ E) as (_ & -> & -> & _).
    exact Hinv.
  - destruct (initWithReader_success _ _ _ _ _ _ E)
      as (_ & _ & _ & -> & -> & _ & Hn). exact Hn.
Qed.

Lemma tls_invariant_run ops :
  forall r,
    (isTLS r = true -> tlsServerName r <> EmptyString) ->
    isTLS (run_ops ops r) = true -> tlsServerName (run_ops ops r) <> EmptyString.
Proof.
  unfold run_ops. induction ops as [|op ops IH]; intros r Hinv; simpl.
  - exact Hinv.
  - apply IH. apply tls_invariant_step. exact Hinv.
Qed.

(** C7 (amended): [initWithReader] fails when the request is already
    bound, when the reader is nil, when [isTLS] is set with an empty server
    name and when the request line does not parse; a failure leaves the
    reader field as it was: an unbound request stays unbound (reader still
    nil) and a bound request keeps the reader it is bound to.  Success
    requires an unbound request, so between two bindings there is a
    [Reset]; and through any sequence of initialisations and resets of a
    fresh request, [isTLS] comes with a non-empty [tlsServerName]. *)
Theorem initWithReader_binds_once :
  (forall r rd sn t h n,
      (reader r <> None \/ rd = None \/ (t = true /\ n = EmptyString) \/
       (exists rd0 l rd1 e,
           rd = Some rd0 /\
           RequestLine_Parse (reqLine r) rd0 h = (l, rd1, Some e)) ->
       snd (initWithReader r rd sn t h n) <> None) /\
      (snd (initWithReader r rd sn t h n) <> None ->
       reader (fst (initWithReader r rd sn t h n)) = reader r) /\
      (snd (initWithReader r rd sn t h n) = None ->
       reader r = None /\
       reader (fst (initWithReader r rd sn t h n)) <> None /\
       (isTLS (fst (initWithReader r rd sn t h n)) = true ->
        tlsServerName (fst (initWithReader r rd sn t h n)) <> EmptyString))) /\
  (forall r, reader (Request_Reset r) = None) /\
  (forall ops,
      isTLS (run_ops ops Request_zero) = true ->
      tlsServerName (run_ops ops Request_zero) <> EmptyString).
Proof.
  split; [|split].
  - intros r rd sn t h n. split; [apply initWithReader_rejects|].
    destruct (initWithReader r rd sn t h n) as [r' [e|]] eqn:E; simpl.
    + split; [|discriminate]. intros _.
      apply (initWithReader_failure _ _ _ _ _ _ E).
    + split; [congruence|]. intros _.
      destruct (initWithReader_success _ _ _ _ _ _ E)
        as (H1 & H2 & _ & Ht & Hn & _ & Himp).
      repeat split; auto. rewrite Ht, Hn. exact Himp.
  - reflexivity.
  - intros ops. apply tls_invariant_run. simpl. discriminate.
Qed.

(** C9: [Response.ConnectionClose] is the constant [false], for every
    response and in particular for the response [ReadFrom] leaves behind,
    whatever header block it parsed. *)
Theorem Response_ConnectionClose_false :
  forall r : Response,
    Response_ConnectionClose r = false /\
    forall rd : Reader,
      Response_ConnectionClose (fst (fst (Response_ReadFrom r rd))) = false.
Proof. intros r. split; [reflexivity | intros rd; reflexivity]. Qed.

(** C10: [Reset] clears the reader and resets the request line and the
    header block, and leaves [isTLS], [tlsServerName] and the sniffer as
    they were; a request that went through [ReleaseRequest] and comes back
    from [AcquireRequest] still reports the old [IsTLS] and
    [TLSServerName], a failed initialisation keeps them, and a successful
    one replaces them by its arguments. *)
Theorem Request_Reset_frame :
  forall (r : Request) (pool : RequestPool),
    (reader (Request_Reset r) = None /\
     reqLine (Request_Reset r) = RequestLine_Reset (reqLine r) /\
     req_header (Request_Reset r) = Header_Reset (req_header r)) /\
    (isTLS (Request_Reset r) = isTLS r /\
     tlsServerName (Request_Reset r) = tlsServerName r /\
     req_sniffer (Request_Reset r) = req_sniffer r) /\
    (let '(r', pool') := AcquireRequest (ReleaseRequest r pool) in
     pool' = pool /\ reader r' = None /\
     IsTLS r' = IsTLS r /\ TLSServerName r' = TLSServerName r) /\
    (forall rd sn t h n,
        let '(r', err) := initWithReader (Request_Reset r) rd sn t h n in
        match err with
        | Some _ => IsTLS r' = IsTLS r /\ TLSServerName r' = TLSServerName r
        | None => IsTLS r' = t /\ TLSServerName r' = n
        end).
Proof.
  intros r pool. repeat split.
  intros rd sn t h n.
  destruct (initWithReader (Request_Reset r) rd sn t h n) as [r' [e|]] eqn:E.
  - destruct (initWithReader_failure _ _ _ _ _ _ E) as (_ & Ht & Hn & _).
    unfold IsTLS, TLSServerName. rewrite Ht, Hn. auto.
  - destruct (initWithReader_success _ _ _ _ _ _ E)
      as (_ & _ & _ & Ht & Hn & _).
    unfold IsTLS, TLSServerName. auto.
Qed.

End ObjectFacts.

(** C7, as stated, fails for the already-bound case: the second
    initialisation of a bound request is rejected, and the request is not
    left unbound; its reader is the one it was bound to. *)
Lemma initWithReader_bound_stays_bound :
  reader bound_request <> None /\
  snd (initWithReader bound_request (Some e2_src) [] false "" "")
    = Some (ErrNew "request already initialized") /\
  reader (fst (initWithReader bound_request (Some e2_src) [] false "" ""))
    = Some hello_src /\
  reader (fst (initWithReader bound_request (Some e2_src) [] false "" ""))
    <> None.
Proof. repeat split; discriminate. Qed.

Lemma initWithReader_binds_once_witness :
  (reader bound_request <> None \/ Some e2_src = None \/
   (false = true /\ EmptyString = EmptyString) \/
   (exists rd0 l rd1 e,
       Some e2_src = Some rd0 /\
       RequestLine_Parse (reqLine bound_request) rd0 "" = (l, rd1, Some e))) /\
  snd (initWithReader bound_request (Some e2_src) [] false "" "") <> None.
Proof.
  assert (H : reader bound_request <> None \/ Some e2_src = None \/
              (false = true /\ EmptyString = EmptyString) \/
              (exists rd0 l rd1 e,
                  Some e2_src = Some rd0 /\
                  RequestLine_Parse (reqLine bound_request) rd0 ""
                  = (l, rd1, Some e))).
  { left. discriminate. }
  split; [exact H|].
  exact (proj1 (proj1 (@initWithReader_binds_once sample_package)
                  bound_request (Some e2_src) [] false
                  EmptyString EmptyString) H).
Defined.

(** The sample package on an answer that carries [Connection: close]: the
    parsed header has the flag, [ConnectionClose] does not report it. *)
Example Response_ConnectionClose_ignores_header :
  let r := fst (fst (Response_ReadFrom open_response close_answer)) in
  IsConnectionClose (resp_header r) = true /\
  Response_ConnectionClose r = false.
Proof. split; reflexivity. Qed.

(** A recycled request still reports the TLS settings of its last use. *)
Example recycled_request_reports_old_tls :
  let '(r', _) := AcquireRequest (ReleaseRequest bound_request []) in
  reader r' = None /\ IsTLS r' = true /\ TLSServerName r' = "example.test"%string.
Proof. repeat split. Qed.

(** ** The proxy server *)

Lemma Conn_Write_open p c :
  wroom (c_out c) = None ->
  Conn_Write p c
  = (length p, None,
     {| c_in := c_in c;
        c_out := {| wbytes := wbytes (c_out c) ++ p; wroom := None |};
        c_closed := c_closed c |}).
Proof. intros H. unfold Conn_Write. rewrite Write_open by exact H. reflexivity. Qed.

(** On a connection that accepts the writes, [writeFastError] sends the
    status line and the envelope with the length of the message. *)
Lemma writeFastError_open date c statusCode msg :
  wroom (c_out c) = None ->
  writeFastError date c statusCode msg
  = ({| c_in := c_in c;
        c_out :=
          {| wbytes :=
               wbytes (c_out c) ++
               StatusLine statusCode ++
               lit "Connection: close" ++ strCRLF ++
               lit "Date: " ++ lit date ++ strCRLF ++
               lit "Content-Type: text/plain" ++ strCRLF ++
               lit "Content-Length: " ++ decimal (length msg) ++ strCRLF ++
               strCRLF ++ msg;
             wroom := None |};
        c_closed := c_closed c |}, None).
Proof.
  intros H. unfold writeFastError.
  rewrite Conn_Write_open by exact H.
  rewrite Conn_Write_open by reflexivity. simpl c_in. simpl c_out.
  simpl c_closed. simpl wbytes. rewrite <- app_assoc. reflexivity.
Qed.

Lemma non_proxy_msg_length : length non_proxy_msg = 64.
Proof. reflexivity. Qed.

Section ProxyFacts.

Context {HP : HeaderPackage}.

Variable handleHTTPConns :
  Conn -> Request -> Sniffer -> Conn * Request * option error.
Variable handleHTTPSConns :
  Conn -> string -> Sniffer -> Conn * option error.

(** C4 (amended): when the request line of a connection fails to parse
    with [ErrNoHostProvided], and the connection accepts the writes, the
    bytes sent downstream by [serveConn] are exactly the 400 response with
    [Connection: close], the date, [Content-Type: text/plain] and
    [Content-Length: 64], 64 being the byte length of the message; the
    worker then closes the connection. *)
Theorem serveConn_non_proxy_request date c pool sniffer :
  wroom (c_out c) = None ->
  snd (InitWithProxyReader (fst (AcquireRequest pool))
         (Some {| rbuf := []; und := c_in c |}) sniffer)
    = Some ErrNoHostProvided ->
  let '(c', _, err) :=
    workerServe handleHTTPConns handleHTTPSConns date c pool sniffer in
  wbytes (c_out c') = wbytes (c_out c) ++ bad_request_response date /\
  length non_proxy_msg = 64 /\
  c_closed c' = true /\
  err = Some (errorWrapper "fail to read http request header"
                (ErrNew "client requests a non-proxy request")).
Proof.
  intros Hw Hinit. unfold workerServe, serveConn.
  destruct (AcquireRequest pool) as [req pool1]. simpl in Hinit.
  destruct (InitWithProxyReader req (Some {| rbuf := []; und := c_in c |})
              sniffer) as [req1 err1].
  simpl in Hinit. subst err1.
  rewrite writeFastError_open by exact Hw.
  simpl. repeat split.
Qed.

End ProxyFacts.

(** C4, as stated, fails on the content length: on scenario E2 the server
    sends [Content-Length: 64], the length of its message, not 60. *)
Lemma serveConn_content_length_is_64 :
  let '(c', _, _) :=
    workerServe idle_http idle_https sample_date e2_conn [] [] in
  wbytes (c_out c') = bad_request_response sample_date /\
  wbytes (c_out c') <> stated_400_response sample_date /\
  length non_proxy_msg <> 60.
Proof.
  vm_compute. repeat split; discriminate.
Qed.

Lemma serveConn_non_proxy_request_witness :
  wroom (c_out e2_conn) = None /\
  snd (InitWithProxyReader (fst (AcquireRequest []))
         (Some {| rbuf := []; und := c_in e2_conn |}) [])
    = Some ErrNoHostProvided /\
  let '(c', _, err) :=
    workerServe idle_http idle_https sample_date e2_conn [] [] in
  wbytes (c_out c') = wbytes (c_out e2_conn) ++ bad_request_response sample_date /\
  length non_proxy_msg = 64 /\
  c_closed c' = true /\
  err = Some (errorWrapper "fail to read http request header"
                (ErrNew "client requests a non-proxy request")).
Proof.
  split; [reflexivity|]. split; [reflexivity|].
  exact (@serveConn_non_proxy_request sample_package idle_http idle_https
           sample_date e2_conn [] [] eq_refl eq_refl).
Defined.

(** *** Overflow of the worker pool *)






(** Three overflows 0, 30 and 90 seconds apart: the first and the third
    are logged. *)
Example three_overflows_logged :
  overflow_logs (fst (Serve_loop three_overflows full_pool zeroTime))
  = [(t0, t0); ((t0 + 90 * Second)%Z, (t0 + 90 * Second)%Z)].
Proof. reflexivity. Qed.


(** ** The opaque tunnel *)















(** Scenario E3 under the fair schedule. *)
Example tunnel_e3 :
  match tunnelConnect_start (inr e3_origin) e3_client "example.test:443" with
  | Tunnel_splicing s0 =>
      let s := splice_run (fair_schedule s0) s0 in
      tunnelConnect_finish s = Some None /\
      wbytes (c_out (s_client s)) = statusOK ++ lit "hello client" /\
      wbytes (c_out (s_origin s)) = lit "hello origin"
  | Tunnel_returned _ _ => False
  end.
Proof. vm_compute. repeat split. Qed.


(** ** The MITM handler *)

Section MitmFacts.

Context {HP : HeaderPackage}.

Variable Certificate : Type.
Variable SplitHostPort : string -> error + (string * string).
Variable GenCert : list string -> error + Certificate.
Variable tls_Handshake : Conn -> Certificate -> string * (error + Conn).
Variable client_Do : Request -> Response -> Request * Response * option error.


Variable ShouldDecryptHost : string -> bool.
Variable Dial : string -> error + Conn.

(** The CONNECT dispatch: a host that should not be decrypted goes to the
    opaque tunnel, which starts by dialing it; the others go to the MITM
    handler. *)
Lemma handleHTTPSConns_dispatch c host sniffer pool resp :
  handleHTTPSConns SplitHostPort GenCert tls_Handshake client_Do
                   ShouldDecryptHost Dial c host sniffer pool resp
  = if ShouldDecryptHost host
    then Https_decrypted
           (decryptConnect SplitHostPort GenCert tls_Handshake client_Do
                           c host sniffer pool resp)
    else Https_tunnel (tunnelConnect_start (Dial host) c host).
Proof. reflexivity. Qed.

End MitmFacts.


(** With a server name the same client is served: a request is bound and
    forwarded. *)
Example decryptConnect_with_SNI :
  let '(_, _, events, err) :=
    decryptConnect sample_split sample_gencert
                   (sample_handshake "example.test") sample_do
                   mitm_conn "example.test:443" [] [] Response_zero in
  events = [MitmBound "example.test"; MitmForwarded; MitmClosed] /\ err = None.
Proof. vm_compute. split; reflexivity. Qed.

(** ** The fuel of the copiers is enough

    Every loop of the copier removes bytes from the source before it goes
    round again, so the fuel computed from the source is never used up. *)

Lemma ReadByte_shrinks r c e r' :
  ReadByte r = (c, e, r') ->
  length (content r') <= length (content r) /\
  (e = None -> content r = c :: content r').
Proof.
  unfold ReadByte. destruct (rbuf r) as [|x xs] eqn:Hb.
  - destruct (fill r) as [r1 e1] eqn:Hf.
    pose proof (fill_content _ Hf) as (Hc & Hlt & _).
    destruct (rbuf r1) as [|y ys] eqn:Hb1; intros H; inversion H; subst.
    + rewrite Hc. split; [lia|]. intros ->. specialize (Hlt eq_refl).
      unfold Buffered in Hlt. rewrite Hb, Hb1 in Hlt. simpl in Hlt. lia.
    + rewrite <- Hc. unfold content. rewrite Hb1. simpl. split; [lia | auto].
  - intros H; inversion H; subst. unfold content. rewrite Hb. simpl.
    split; [lia | auto].
Qed.

Lemma readChunkExt_loop_fuel fuel :
  forall r buffer,
    length (content r) < fuel ->
    snd (readChunkExt_loop fuel r buffer) <> OutOfFuel /\
    length (content (fst (fst (readChunkExt_loop fuel r buffer))))
      <= length (content r).
Proof.
  induction fuel as [|fuel IH]; intros r buffer Hf; [lia|].
  cbn [readChunkExt_loop].
  destruct (ReadByte r) as [[c e] r1] eqn:HR.
  destruct (ReadByte_shrinks _ HR) as [Hle Hcons].
  destruct e as [e|]; simpl; [split; [discriminate | exact Hle]|].
  specialize (Hcons eq_refl).
  destruct (Byte.eqb c CR); simpl.
  - split; [discriminate|]. unfold UnreadByte, content in *. simpl.
    rewrite Hcons. simpl. lia.
  - apply (f_equal (@length _)) in Hcons. simpl in Hcons.
    destruct (IH r1 (buffer ++ [c]) ltac:(lia)) as [A B]. split; [exact A | lia].
Qed.

Lemma readHexInt_loop_fuel fuel :
  forall i n r buffer,
    length (content r) < fuel ->
    let res := readHexInt_loop fuel i n r buffer in
    snd (snd res) <> OutOfFuel /\
    length (content (fst (fst res))) <= length (content r) /\
    (snd (snd res) = Return None -> i = 0 ->
     length (content (fst (fst res))) < length (content r)).
Proof.
  induction fuel as [|fuel IH]; intros i n r buffer Hf; [lia|].
  cbn [readHexInt_loop].
  destruct (ReadByte r) as [[c e] r1] eqn:HR.
  destruct (ReadByte_shrinks _ HR) as [Hle Hcons].
  destruct e as [e|]; simpl;
    [split; [discriminate | split; [exact Hle | discriminate]]|].
  specialize (Hcons eq_refl).
  pose proof (f_equal (@length _) Hcons) as Hlen. simpl in Hlen.
  destruct (is_hex c).
  - destruct (IH (S i) (hex_step n c) r1 (buffer ++ [c]) ltac:(lia))
      as (A & B & _).
    split; [exact A|]. split; lia.
  - destruct (i =? 0) eqn:Ei; simpl.
    + split; [discriminate|]. split; [lia | discriminate].
    + apply Nat.eqb_neq in Ei. destruct (Byte.eqb c semicolon).
      * destruct (@readChunkExt_loop_fuel fuel r1 (buffer ++ [c]) ltac:(lia))
          as [A B].
        destruct (readChunkExt_loop fuel r1 (buffer ++ [c])) as [st out].
        simpl in A, B.
        destruct out as [[e|]| |]; simpl;
          (split; [congruence | split; [lia | intros; lia]]).
      * simpl. split; [discriminate|]. split; [|intros; lia].
        unfold UnreadByte, content in *. simpl. rewrite Hcons. simpl. lia.
Qed.

(** A size line that parses has consumed at least one byte. *)
Lemma parseChunkSize_fuel r buffer :
  let res := parseChunkSize r buffer in
  snd (snd res) <> OutOfFuel /\
  (snd (snd res) = Return None ->
   length (content (fst (fst res))) < length (content r)).
Proof.
  unfold parseChunkSize, readHexInt.
  pose proof (@readHexInt_loop_fuel (S (length (content r))) 0 0%Z r buffer
                ltac:(lia)) as H. cbv zeta in H.
  destruct (readHexInt_loop (S (length (content r))) 0 0%Z r buffer)
    as [[r1 b1] [n out]].
  simpl in H. destruct H as (A & B & C).
  destruct out as [[e|]| |]; simpl; try (split; [assumption || discriminate | discriminate]).
  - specialize (C eq_refl eq_refl).
    destruct (ReadByte r1) as [[c e] r2] eqn:HR.
    destruct (ReadByte_shrinks _ HR) as [Hle _].
    destruct e as [e|]; simpl; [split; discriminate|].
    destruct (Byte.eqb c CR); simpl; [|split; discriminate].
    destruct (ReadByte r2) as [[c2 e2] r3] eqn:HR2.
    destruct (ReadByte_shrinks _ HR2) as [Hle2 _].
    destruct e2 as [e2|]; simpl; [split; discriminate|].
    destruct (Byte.eqb c2 LF); simpl; [|split; discriminate].
    split; [discriminate | intros; lia].
Qed.

(** The fixed-size copier never runs out of fuel and never gives bytes
    back to the source, whatever the budget. *)
Lemma copyBodyFixedSize_fuel src dst N sn :
  snd (copyBodyFixedSize src dst N sn) <> OutOfFuel /\
  length (content (fst (fst (fst (copyBodyFixedSize src dst N sn)))))
    <= length (content src).
Proof.
  destruct (Z.ltb_spec 0 N) as [HN|HN].
  - pose proof (@copyBodyFixedSize_post src dst N sn HN) as H.
    unfold fixed_post in H.
    destruct (copyBodyFixedSize src dst N sn) as [[[src' dst'] sn'] out].
    destruct H as (c & ex & Hc & _ & _ & _ & _ & Hf & _). simpl.
    split; [exact Hf|]. rewrite Hc, length_app. lia.
  - unfold copyBodyFixedSize. cbn [copyBodyFixedSize_loop].
    destruct (Peek 1 src) as [[b1 e1] src1] eqn:HP.
    pose proof (Peek1_spec _ HP) as (Hc1 & _ & _). clear HP.
    rewrite <- Hc1.
    destruct (length b1 =? 0); cbn [fst snd]; [split; [discriminate | lia]|].
    rewrite Peek_Buffered.
    destruct (length (rbuf src1) =? 0); cbn [orb fst snd];
      [split; [discriminate | lia]|].
    cbn [isSome].
    replace (N <=? Z.of_nat (length (rbuf src1)))%Z with true
      by (symmetry; apply Z.leb_le; lia).
    destruct (N <? 0)%Z eqn:Eneg; cbn [fst snd];
      [split; [discriminate | lia]|].
    apply Z.ltb_ge in Eneg. assert (N = 0%Z) by lia. subst N.
    change (Z.to_nat 0) with 0. cbn [firstn].
    destruct (Write [] dst) as [[nw [e|]] dst1] eqn:HW; cbn [fst snd];
      [split; [discriminate | lia]|].
    destruct (nw =? 0) eqn:En; cbn [negb fst snd];
      [|split; [discriminate | lia]].
    apply Nat.eqb_eq in En. subst nw.
    unfold Discard. cbn [Nat.eqb]. change (0 - 0 =? 0)%Z with true.
    cbn [fst snd]. split; [discriminate | lia].
Qed.

Lemma copyBodyChunked_loop_fuel fuel :
  forall src dst buffer sn,
    length (content src) < fuel ->
    snd (copyBodyChunked_loop fuel src dst buffer sn) <> OutOfFuel.
Proof.
  induction fuel as [|fuel IH]; intros src dst buffer sn Hf; [lia|].
  cbn [copyBodyChunked_loop].
  pose proof (parseChunkSize_fuel src []) as H. cbv zeta in H.
  destruct (parseChunkSize src []) as [[src1 b1] [n out]].
  cbn [fst snd] in H. destruct H as [A B].
  destruct out as [[e|]| |]; cbn [fst snd]; try discriminate; try congruence.
  specialize (B eq_refl).
  destruct (Write b1 dst) as [[nw [e|]] dst1]; cbn [fst snd]; [discriminate|].
  pose proof (copyBodyFixedSize_fuel src1 dst1
                (wrap_int (n + Z.of_nat (length strCRLF)))
                (sniff_Body b1 sn)) as [C D].
  destruct (copyBodyFixedSize src1 dst1
              (wrap_int (n + Z.of_nat (length strCRLF))) (sniff_Body b1 sn))
    as [[[src2 dst2] sn2] out2].
  cbn [fst snd] in C, D.
  destruct out2 as [[e|]| |]; cbn [fst snd]; try discriminate; try congruence.
  destruct (n =? 0)%Z; cbn [fst snd]; [discriminate|].
  apply IH. lia.
Qed.

(** [copyBodyChunked] always comes to an end within its fuel. *)
Lemma copyBodyChunked_total src dst buffer sn :
  snd (copyBodyChunked src dst buffer sn) <> OutOfFuel.
Proof. apply copyBodyChunked_loop_fuel. lia. Qed.

(** * Further properties of the body copier *)

(** ** What the fixed-size loop does to its three streams, for every
    budget, every source and every destination *)

Lemma firstn_firstn_prefix (n m : nat) (b : bytes) :
  exists t, b = firstn n (firstn m b) ++ t.
Proof.
  exists (skipn n (firstn m b) ++ skipn m b).
  rewrite app_assoc, firstn_skipn, firstn_skipn. reflexivity.
Qed.

(** [consumed] left the source and reached destination and sniffer;
    [extra] is the part of a failed write the destination took, and it is
    still at the head of the source. *)
Lemma copyBodyFixedSize_loop_trace fuel :
  forall src dst N sn,
    let '((src', dst', sn'), out) := copyBodyFixedSize_loop fuel src dst N sn in
    exists consumed extra t : bytes,
      content src = consumed ++ content src' /\
      wbytes dst' = wbytes dst ++ consumed ++ extra /\
      content src' = extra ++ t /\
      sniffer_body sn' = sniffer_body sn ++ consumed /\
      (out = Return None \/ out = Return (Some EOF) -> extra = []) /\
      (wroom dst = None -> wroom dst' = None /\ extra = []).
Proof.
  induction fuel as [|fuel IH]; intros src dst N sn.
  - simpl. exists [], [], (content src). rewrite !app_nil_r. auto 10.
  - cbn [copyBodyFixedSize_loop].
    destruct (Peek 1 src) as [[b1 e1] src1] eqn:HP.
    pose proof (Peek1_spec _ HP) as (Hc1 & _ & _). clear HP.
    assert (Hstop : forall out,
               exists consumed extra t : bytes,
                 content src = consumed ++ content src1 /\
                 wbytes dst = wbytes dst ++ consumed ++ extra /\
                 content src1 = extra ++ t /\
                 sniffer_body sn = sniffer_body sn ++ consumed /\
                 (out = Return None \/ out = Return (Some EOF) -> extra = []) /\
                 (wroom dst = None -> wroom dst = None /\ extra = [])).
    { intros out. exists [], [], (content src1). rewrite !app_nil_r. auto 10. }
    destruct (length b1 =? 0); [apply Hstop|].
    rewrite Peek_Buffered.
    destruct ((length (rbuf src1) =? 0) || isSome (@None error))%bool;
      [apply Hstop|].
    set (b := rbuf src1).
    set (k0 := if (N <=? Z.of_nat (length b))%Z then N else Z.of_nat (length b)).
    destruct (k0 <? 0)%Z; [apply Hstop|].
    set (k := Z.to_nat k0).
    destruct (Write (firstn k b) dst) as [[nw werr] dst1] eqn:HW.
    apply Write_spec in HW. destruct HW as (Hwb & Hnw & Hwok & Hwnone).
    assert (Hb : content src1 = b ++ concat (und src1)) by reflexivity.
    assert (Hk : k <= length b).
    { unfold k, k0. destruct (N <=? Z.of_nat (length b))%Z eqn:E; [|lia].
      apply Z.leb_le in E. lia. }
    destruct werr as [e|].
    + destruct (firstn_firstn_prefix nw k b) as (t & Ht).
      exists [], (firstn nw (firstn k b)), (t ++ concat (und src1)).
      cbn [app]. split; [symmetry; exact Hc1|]. split; [exact Hwb|].
      split; [rewrite Hb, app_assoc, <- Ht; reflexivity|].
      split; [rewrite app_nil_r; reflexivity|]. split.
      * intros [H|H]; discriminate H.
      * intros Hn. destruct (Hwnone Hn). discriminate.
    + specialize (Hwok eq_refl). subst nw.
      rewrite firstn_all in Hwb.
      replace (length (firstn k b) =? k) with true
        by (symmetry; apply Nat.eqb_eq; rewrite length_firstn; lia).
      cbn [negb].
      replace (length (firstn k b)) with k by (rewrite length_firstn; lia).
      rewrite Discard_buffered by (unfold Buffered; exact Hk).
      fold b. set (src3 := {| rbuf := skipn k b; und := und src1 |}).
      assert (Hsrc : content src = firstn k b ++ content src3).
      { rewrite <- Hc1, Hb. unfold content, src3. cbn [rbuf und].
        rewrite app_assoc, firstn_skipn. reflexivity. }
      destruct (N - k0 =? 0)%Z.
      * exists (firstn k b), [], (content src3).
        rewrite !app_nil_r, sniffer_body_Body.
        repeat split; auto;
          match goal with
          | Hn : wroom _ = None |- _ => apply (Hwnone Hn)
          end.
      * specialize (IH src3 dst1 (N - k0)%Z (sniff_Body (firstn k b) sn)).
        destruct (copyBodyFixedSize_loop fuel src3 dst1 (N - k0)
                    (sniff_Body (firstn k b) sn))
          as [[[src' dst'] sn'] out].
        destruct IH as (c & ex & t & Hc & Hw & Ht & Hs & Hok & Hroom).
        exists (firstn k b ++ c), ex, t.
        rewrite Hsrc, Hc, Hw, Hwb, Hs, sniffer_body_Body, <- !app_assoc.
        repeat split; auto;
          match goal with
          | Hn : wroom _ = None |- _ =>
              destruct (Hwnone Hn) as [_ Hd]; apply (Hroom Hd)
          end.
Qed.

(** X1: for a positive budget the fixed-size copier never reaches one of
    its two [panic] calls nor the short-write return: it ends with [nil],
    [io.EOF] or the wrapped write error.  The sniffer is handed exactly the
    bytes removed from the source; the bytes a failed write pushed into the
    destination are not discarded and stay at the head of the source. *)
Theorem copyBodyFixedSize_outcomes src dst sn N :
  (0 < N)%Z ->
  let '((src', dst', sn'), out) := copyBodyFixedSize src dst N sn in
  out <> Panic /\ out <> OutOfFuel /\ out <> Return (Some ErrShortWrite) /\
  (out = Return None \/ out = Return (Some EOF) \/
   exists e, out = Return (Some (Errorf "fail to write request body : " e))) /\
  exists consumed extra t : bytes,
    content src = consumed ++ content src' /\
    sniffer_body sn' = sniffer_body sn ++ consumed /\
    wbytes dst' = wbytes dst ++ consumed ++ extra /\
    content src' = extra ++ t /\
    (out = Return None \/ out = Return (Some EOF) -> extra = []).
Proof.
  intros HN.
  pose proof (copyBodyFixedSize_post src dst sn HN) as P.
  pose proof (copyBodyFixedSize_loop_trace (S (length (content src)))
                src dst N sn) as T.
  unfold copyBodyFixedSize in *. unfold fixed_post in P.
  destruct (copyBodyFixedSize_loop (S (length (content src))) src dst N sn)
    as [[[src' dst'] sn'] out].
  destruct P as (_ & _ & _ & _ & _ & _ & Hp & Hf & _ & _ & _ & _ & Hout).
  destruct T as (c & ex & t & Hc & Hw & Ht & Hs & Hok & _).
  split; [exact Hp|]. split; [exact Hf|]. split.
  - destruct Hout as [->|[->|[e ->]]]; discriminate.
  - split; [exact Hout|]. exists c, ex, t. auto.
Qed.

Lemma copyBodyFixedSize_outcomes_witness :
  (0 < 5)%Z /\
  let '((src', dst', sn'), out) := copyBodyFixedSize hello_src open_dst 5 [] in
  out <> Panic /\ out <> OutOfFuel /\ out <> Return (Some ErrShortWrite) /\
  (out = Return None \/ out = Return (Some EOF) \/
   exists e, out = Return (Some (Errorf "fail to write request body : " e))) /\
  exists consumed extra t : bytes,
    content hello_src = consumed ++ content src' /\
    sniffer_body sn' = sniffer_body [] ++ consumed /\
    wbytes dst' = wbytes open_dst ++ consumed ++ extra /\
    content src' = extra ++ t /\
    (out = Return None \/ out = Return (Some EOF) -> extra = []).
Proof.
  split; [reflexivity|].
  exact (@copyBodyFixedSize_outcomes hello_src open_dst [] 5%Z eq_refl).
Defined.

Lemma copyBodyFixedSize_drains src dst sn N :
  (Z.of_nat (length (content src)) < N)%Z ->
  no_stall src -> wroom dst = None ->
  exists src' dst' sn',
    copyBodyFixedSize src dst N sn = ((src', dst', sn'), Return (Some EOF)) /\
    content src' = [] /\
    wbytes dst' = wbytes dst ++ content src /\
    sniffer_body sn' = sniffer_body sn ++ content src.
Proof.
  intros Hlen Hns Hw.
  pose proof (@copyBodyFixedSize_post src dst N sn ltac:(lia)) as P.
  unfold fixed_post in P.
  destruct (copyBodyFixedSize src dst N sn) as [[[src' dst'] sn'] out].
  destruct P as (c & ex & Hc & Hwb & Hs & Hle & Hp & Hf & Hok & Heof
                 & Hnone & Hstall & Hout).
  destruct (Hnone Hw) as [_ [Ho|Ho]].
  - exfalso. destruct (Hok Ho) as [_ Hn].
    apply (f_equal (@length _)) in Hc. rewrite length_app in Hc. lia.
  - destruct (Heof Ho) as (-> & _ & _).
    destruct (Hstall Hns) as [_ Hend]. specialize (Hend Ho).
    rewrite Hend, app_nil_r in Hc. subst c out.
    rewrite app_nil_r in Hwb. exists src', dst', sn'. auto.
Qed.

(** X2: when the source ends before the budget is met, on a connection
    that never answers an empty read and a destination that accepts the
    writes, everything the source held has been forwarded to destination
    and sniffer before [io.EOF] is returned, and the source is empty. *)
Theorem copyBodyFixedSize_short_source_drained src dst sn N :
  (Z.of_nat (length (content src)) < N)%Z ->
  no_stall src -> wroom dst = None ->
  exists src' dst' sn',
    copyBodyFixedSize src dst N sn = ((src', dst', sn'), Return (Some EOF)) /\
    content src' = [] /\
    wbytes dst' = wbytes dst ++ content src /\
    sniffer_body sn' = sniffer_body sn ++ content src.
Proof. exact (@copyBodyFixedSize_drains src dst sn N). Qed.

Lemma hello_src_no_stall : no_stall hello_src.
Proof. repeat (apply Forall_cons || apply Forall_nil); discriminate. Defined.

Lemma copyBodyFixedSize_short_source_drained_witness :
  (Z.of_nat (length (content hello_src)) < 20)%Z /\
  exists src' dst' sn',
    copyBodyFixedSize hello_src open_dst 20 []
      = ((src', dst', sn'), Return (Some EOF)) /\
    content src' = [] /\
    wbytes dst' = wbytes open_dst ++ content hello_src /\
    sniffer_body sn' = sniffer_body [] ++ content hello_src.
Proof.
  split; [reflexivity|].
  exact (@copyBodyFixedSize_short_source_drained hello_src open_dst [] 20%Z
           eq_refl hello_src_no_stall eq_refl).
Defined.

(** ** Budgets that are not positive *)





(** X4: copying [N1] bytes and then [N2] bytes from where the first copy
    stopped forwards the same bytes, and leaves the same bytes in the
    source, as one copy of [N1 + N2] bytes. *)
Theorem copyBodyFixedSize_compose src dst sn N1 N2 :
  (0 < N1)%Z -> (0 < N2)%Z ->
  (N1 + N2 <= Z.of_nat (length (content src)))%Z ->
  no_stall src -> wroom dst = None ->
  exists src1 dst1 sn1 src2 dst2 sn2 src3 dst3 sn3,
    copyBodyFixedSize src dst N1 sn = ((src1, dst1, sn1), Return None) /\
    copyBodyFixedSize src1 dst1 N2 sn1 = ((src2, dst2, sn2), Return None) /\
    copyBodyFixedSize src dst (N1 + N2) sn = ((src3, dst3, sn3), Return None) /\
    content src2 = content src3 /\
    wbytes dst2 = wbytes dst3 /\
    sniffer_body sn2 = sniffer_body sn3.
Proof.
  intros H1 H2 Hlen Hns Hw.
  set (n1 := Z.to_nat N1). set (n2 := Z.to_nat N2).
  set (c := content src).
  assert (Hsplit : c = firstn n1 c ++ firstn n2 (skipn n1 c)
                       ++ skipn n2 (skipn n1 c))
    by (rewrite firstn_skipn, firstn_skipn; reflexivity).
  assert (L1 : length (firstn n1 c) = n1)
    by (rewrite length_firstn; unfold c, n1; lia).
  assert (L2 : length (firstn n2 (skipn n1 c)) = n2)
    by (rewrite length_firstn, length_skipn; unfold c, n1, n2; lia).
  destruct (@copyBodyFixedSize_exact src dst sn N1 (firstn n1 c)
              (firstn n2 (skipn n1 c) ++ skipn n2 (skipn n1 c))
              H1 ltac:(unfold n1 in *; lia) Hsplit Hns Hw)
    as (src1 & dst1 & sn1 & E1 & C1 & S1 & W1 & R1 & B1).
  destruct (@copyBodyFixedSize_exact src1 dst1 sn1 N2 (firstn n2 (skipn n1 c))
              (skipn n2 (skipn n1 c))
              H2 ltac:(unfold n2 in *; lia) C1 S1 R1)
    as (src2 & dst2 & sn2 & E2 & C2 & S2 & W2 & R2 & B2).
  destruct (@copyBodyFixedSize_exact src dst sn (N1 + N2)%Z
              (firstn n1 c ++ firstn n2 (skipn n1 c))
              (skipn n2 (skipn n1 c))
              ltac:(lia)
              ltac:(rewrite length_app, L1, L2; unfold n1, n2; lia)
              ltac:(rewrite <- app_assoc; exact Hsplit) Hns Hw)
    as (src3 & dst3 & sn3 & E3 & C3 & S3 & W3 & R3 & B3).
  exists src1, dst1, sn1, src2, dst2, sn2, src3, dst3, sn3.
  rewrite C2, C3, W2, W1, W3, B2, B1, B3, <- !app_assoc. auto 10.
Qed.

Lemma copyBodyFixedSize_compose_witness :
  (0 < 2)%Z /\ (0 < 5)%Z /\
  (2 + 5 <= Z.of_nat (length (content hello_src)))%Z /\
  exists src1 dst1 sn1 src2 dst2 sn2 src3 dst3 sn3,
    copyBodyFixedSize hello_src open_dst 2 [] = ((src1, dst1, sn1), Return None) /\
    copyBodyFixedSize src1 dst1 5 sn1 = ((src2, dst2, sn2), Return None) /\
    copyBodyFixedSize hello_src open_dst (2 + 5) []
      = ((src3, dst3, sn3), Return None) /\
    content src2 = content src3 /\
    wbytes dst2 = wbytes dst3 /\
    sniffer_body sn2 = sniffer_body sn3.
Proof.
  split; [reflexivity|]. split; [reflexivity|].
  split; [vm_compute; discriminate|].
  exact (@copyBodyFixedSize_compose hello_src open_dst [] 2%Z 5%Z
           eq_refl eq_refl ltac:(vm_compute; discriminate)
           hello_src_no_stall eq_refl).
Defined.

(** ** A destination that fails *)

Lemma copyBodyFixedSize_loop_write_failure fuel :
  forall src dst N sn k,
    length (content src) < fuel ->
    wroom dst = Some k -> (Z.of_nat k < N)%Z ->
    (N <= Z.of_nat (length (content src)))%Z -> no_stall src ->
    let '((src', dst', sn'), out) := copyBodyFixedSize_loop fuel src dst N sn in
    out = Return (Some (Errorf "fail to write request body : " ErrIO)) /\
    wbytes dst' = wbytes dst ++ firstn k (content src) /\
    exists consumed : bytes,
      content src = consumed ++ content src' /\
      length consumed <= k /\
      sniffer_body sn' = sniffer_body sn ++ consumed.
Proof.
  induction fuel as [|fuel IH]; intros src dst N sn k Hfuel Hroom Hk HN Hns;
    [lia|].
  cbn [copyBodyFixedSize_loop].
  assert (Hne : content src <> [])
    by (intros E; rewrite E in HN; simpl in HN; lia).
  destruct (Peek 1 src) as [[b1 e1] src1] eqn:HP.
  pose proof (Peek1_spec _ HP) as (Hc1 & _ & Hnz).
  pose proof (Peek1_no_stall Hns HP) as (Hns1 & Hz). clear HP.
  assert (Hb1 : length b1 <> 0) by (intros H0; specialize (Hz H0); congruence).
  replace (length b1 =? 0) with false by (symmetry; apply Nat.eqb_neq; exact Hb1).
  specialize (Hnz Hb1). rewrite Peek_Buffered.
  set (b := rbuf src1) in *.
  assert (Hlen : 0 < length b) by (destruct b; [congruence | simpl; lia]).
  replace (length b =? 0) with false by (symmetry; apply Nat.eqb_neq; lia).
  cbn [orb isSome].
  set (k0 := if (N <=? Z.of_nat (length b))%Z then N else Z.of_nat (length b)).
  assert (Hk0 : (0 < k0 <= N)%Z /\ (k0 <= Z.of_nat (length b))%Z).
  { unfold k0. destruct (N <=? Z.of_nat (length b))%Z eqn:E.
    - apply Z.leb_le in E. lia.
    - apply Z.leb_gt in E. lia. }
  replace (k0 <? 0)%Z with false by (symmetry; apply Z.ltb_ge; lia).
  set (take := Z.to_nat k0).
  assert (Htake : 0 < take <= length b /\ Z.of_nat take = k0)
    by (unfold take; lia).
  assert (Hb : content src = b ++ concat (und src1))
    by (rewrite <- Hc1; reflexivity).
  assert (Lf : length (firstn take b) = take) by (rewrite length_firstn; lia).
  unfold Write. rewrite Hroom, Lf.
  destruct (take <=? k) eqn:Efit.
  - (* this write fits: the loop goes on with less room *)
    apply Nat.leb_le in Efit. rewrite Nat.eqb_refl. cbn [negb].
    rewrite Discard_buffered by (unfold Buffered; fold b; lia).
    fold b. set (src3 := {| rbuf := skipn take b; und := und src1 |}).
    set (dst1 := {| wbytes := wbytes dst ++ firstn take b;
                    wroom := Some (k - take) |}).
    assert (Hsrc : content src = firstn take b ++ content src3).
    { rewrite Hb. unfold content, src3. cbn [rbuf und].
      rewrite app_assoc, firstn_skipn. reflexivity. }
    replace (N - k0 =? 0)%Z with false by (symmetry; apply Z.eqb_neq; lia).
    assert (Hfuel3 : length (content src3) < fuel).
    { apply (f_equal (@length _)) in Hsrc. rewrite length_app, Lf in Hsrc. lia. }
    assert (HN3 : (N - k0 <= Z.of_nat (length (content src3)))%Z).
    { apply (f_equal (@length _)) in Hsrc. rewrite length_app, Lf in Hsrc. lia. }
    specialize (IH src3 dst1 (N - k0)%Z (sniff_Body (firstn take b) sn)
                   (k - take) Hfuel3 eq_refl ltac:(lia) HN3 Hns1).
    destruct (copyBodyFixedSize_loop fuel src3 dst1 (N - k0)
                (sniff_Body (firstn take b) sn)) as [[[src' dst'] sn'] out].
    destruct IH as (Ho & Hw & c & Hc & Hcl & Hs).
    split; [exact Ho|]. split.
    + rewrite Hw. unfold dst1. cbn [wbytes]. rewrite Hsrc, firstn_app, Lf.
      rewrite (@firstn_all2 _ k (firstn take b)) by lia.
      rewrite <- app_assoc. reflexivity.
    + exists (firstn take b ++ c).
      rewrite Hsrc, Hc, Hs, sniffer_body_Body, length_app, Lf, <- !app_assoc.
      repeat split; auto. lia.
  - (* this write does not fit: [k] bytes are taken and the error returned *)
    apply Nat.leb_gt in Efit. split; [reflexivity|]. split.
    + cbn [wbytes]. rewrite Hb, firstn_app, firstn_firstn.
      replace (k - length b) with 0 by lia.
      rewrite Nat.min_l by lia. cbn [firstn]. rewrite app_nil_r. reflexivity.
    + exists []. cbn [app length]. rewrite app_nil_r.
      repeat split; auto. lia.
Qed.

(** X5: a destination that fails after [k] bytes, with [k] below the
    budget, on a source that holds the budget: the copier returns the
    wrapped write error; the destination has taken exactly the first [k]
    bytes of the source, and no more than those [k] bytes were removed from
    the source and shown to the sniffer. *)
Theorem copyBodyFixedSize_write_failure src dst sn N k :
  wroom dst = Some k -> (Z.of_nat k < N)%Z ->
  (N <= Z.of_nat (length (content src)))%Z -> no_stall src ->
  let '((src', dst', sn'), out) := copyBodyFixedSize src dst N sn in
  out = Return (Some (Errorf "fail to write request body : " ErrIO)) /\
  wbytes dst' = wbytes dst ++ firstn k (content src) /\
  exists consumed : bytes,
    content src = consumed ++ content src' /\
    length consumed <= k /\
    sniffer_body sn' = sniffer_body sn ++ consumed.
Proof.
  intros Hroom Hk HN Hns. unfold copyBodyFixedSize.
  apply copyBodyFixedSize_loop_write_failure with (k := k); auto.
Qed.

Lemma copyBodyFixedSize_write_failure_witness :
  wroom narrow_dst = Some 3 /\ (Z.of_nat 3 < 8)%Z /\
  (8 <= Z.of_nat (length (content hello_src)))%Z /\
  let '((src', dst', sn'), out) := copyBodyFixedSize hello_src narrow_dst 8 [] in
  out = Return (Some (Errorf "fail to write request body : " ErrIO)) /\
  wbytes dst' = wbytes narrow_dst ++ firstn 3 (content hello_src) /\
  exists consumed : bytes,
    content hello_src = consumed ++ content src' /\
    length consumed <= 3 /\
    sniffer_body sn' = sniffer_body [] ++ consumed.
Proof.
  split; [reflexivity|]. split; [reflexivity|].
  split; [vm_compute; discriminate|].
  exact (@copyBodyFixedSize_write_failure hello_src narrow_dst [] 8%Z 3
           eq_refl eq_refl ltac:(vm_compute; discriminate) hello_src_no_stall).
Defined.

(** ** The chunked copier on arbitrary input *)

Lemma ReadByte_error r c e r' :
  ReadByte r = (c, Some e, r') -> content r' = content r.
Proof.
  unfold ReadByte. destruct (rbuf r) as [|x xs] eqn:Hb.
  - destruct (fill r) as [r1 e1] eqn:Hf.
    pose proof (fill_content _ Hf) as (Hc & _ & _).
    destruct (rbuf r1); intros H; inversion H; subst. exact Hc.
  - intros H; inversion H.
Qed.

Lemma ReadByte_trace r c e r' :
  ReadByte r = (c, e, r') ->
  match e with
  | None => content r = c :: content r'
  | Some _ => content r' = content r
  end.
Proof.
  intros H. destruct e as [e|].
  - exact (ReadByte_error _ H).
  - exact (proj2 (ReadByte_shrinks _ H) eq_refl).
Qed.

Lemma readChunkExt_loop_trace fuel :
  forall r buffer,
    let '((r', b'), out) := readChunkExt_loop fuel r buffer in
    exists consumed : bytes,
      content r = consumed ++ content r' /\
      (out = Return None -> b' = buffer ++ consumed).
Proof.
  induction fuel as [|fuel IH]; intros r buffer.
  - simpl. exists []. split; [reflexivity | discriminate].
  - cbn [readChunkExt_loop].
    destruct (ReadByte r) as [[c e] r1] eqn:HR.
    pose proof (ReadByte_trace _ HR) as T.
    destruct e as [e|].
    + exists []. split; [symmetry; exact T | discriminate].
    + destruct (Byte.eqb c CR).
      * exists []. split; [rewrite T; reflexivity|].
        intros _. rewrite app_nil_r. reflexivity.
      * specialize (IH r1 (buffer ++ [c])).
        destruct (readChunkExt_loop fuel r1 (buffer ++ [c])) as [[r' b'] out].
        destruct IH as (cs & Hc & Hb). exists (c :: cs).
        split; [rewrite T, Hc; reflexivity|].
        intros Ho. rewrite (Hb Ho), <- app_assoc. reflexivity.
Qed.

Lemma readHexInt_loop_trace fuel :
  forall i n r buffer,
    let '((r', b'), (_, out)) := readHexInt_loop fuel i n r buffer in
    exists consumed : bytes,
      content r = consumed ++ content r' /\
      (out = Return None -> b' = buffer ++ consumed).
Proof.
  induction fuel as [|fuel IH]; intros i n r buffer.
  - simpl. exists []. split; [reflexivity | discriminate].
  - cbn [readHexInt_loop].
    destruct (ReadByte r) as [[c e] r1] eqn:HR.
    pose proof (ReadByte_trace _ HR) as T.
    destruct e as [e|].
    + exists []. split; [symmetry; exact T | discriminate].
    + destruct (is_hex c).
      * specialize (IH (S i) (hex_step n c) r1 (buffer ++ [c])).
        destruct (readHexInt_loop fuel (S i) (hex_step n c) r1 (buffer ++ [c]))
          as [[r' b'] [m out]].
        destruct IH as (cs & Hc & Hb). exists (c :: cs).
        split; [rewrite T, Hc; reflexivity|].
        intros Ho. rewrite (Hb Ho), <- app_assoc. reflexivity.
      * destruct (i =? 0).
        -- exists [c]. split; [exact T | discriminate].
        -- destruct (Byte.eqb c semicolon).
           ++ pose proof (readChunkExt_loop_trace fuel r1 (buffer ++ [c])) as E.
              destruct (readChunkExt_loop fuel r1 (buffer ++ [c]))
                as [[r' b'] out].
              destruct E as (cs & Hc & Hb).
              assert (G : exists consumed : bytes,
                         content r = consumed ++ content r' /\
                         (out = Return None -> b' = buffer ++ consumed)).
              { exists (c :: cs). split; [rewrite T, Hc; reflexivity|].
                intros Ho. rewrite (Hb Ho), <- app_assoc. reflexivity. }
              destruct out as [[e|]| |]; exact G.
           ++ exists []. split; [rewrite T; reflexivity|].
              intros _. rewrite app_nil_r. reflexivity.
Qed.

(** Whatever [parseChunkSize] returns, the source has lost a prefix; when
    it succeeds that prefix is the size line now in the buffer. *)
Lemma parseChunkSize_trace r buffer :
  let '((r', b'), (_, out)) := parseChunkSize r buffer in
  exists consumed : bytes,
    content r = consumed ++ content r' /\
    (out = Return None -> b' = buffer ++ consumed).
Proof.
  unfold parseChunkSize, readHexInt.
  pose proof (readHexInt_loop_trace (S (length (content r))) 0 0%Z r buffer)
    as H.
  destruct (readHexInt_loop (S (length (content r))) 0 0%Z r buffer)
    as [[r1 b1] [n out]].
  destruct H as (cs & Hc & Hb).
  destruct out as [[e|]| |];
    try (exists cs; split; [exact Hc | discriminate]).
  specialize (Hb eq_refl). subst b1.
  destruct (ReadByte r1) as [[c e] r2] eqn:HR.
  pose proof (ReadByte_trace _ HR) as T.
  destruct e as [e|].
  { exists cs. split; [rewrite T; exact Hc | discriminate]. }
  destruct (Byte.eqb c CR) eqn:Ecr; cbn [negb].
  2: { exists (cs ++ [c]). rewrite <- app_assoc. simpl. rewrite <- T.
       split; [exact Hc | discriminate]. }
  apply Byte.byte_dec_bl in Ecr. subst c.
  destruct (ReadByte r2) as [[c2 e2] r3] eqn:HR2.
  pose proof (ReadByte_trace _ HR2) as T2.
  destruct e2 as [e2|].
  { exists (cs ++ [CR]). rewrite <- app_assoc. simpl. rewrite T2, <- T.
    split; [exact Hc | discriminate]. }
  destruct (Byte.eqb c2 LF) eqn:Elf; cbn [negb].
  2: { exists (cs ++ [CR; c2]). rewrite <- app_assoc. simpl.
       rewrite <- T2, <- T. split; [exact Hc | discriminate]. }
  apply Byte.byte_dec_bl in Elf. subst c2.
  exists (cs ++ strCRLF). rewrite <- !app_assoc. unfold strCRLF. simpl.
  rewrite <- T2, <- T. split; [exact Hc | reflexivity].
Qed.

Lemma copyBodyChunked_loop_trace fuel :
  forall src dst buffer sn,
    let '((src', dst', sn'), out) :=
      copyBodyChunked_loop fuel src dst buffer sn in
    exists w t : bytes,
      wbytes dst' = wbytes dst ++ w /\
      content src = w ++ t /\
      (out = Return None ->
       content src' = t /\ sniffer_body sn' = sniffer_body sn ++ w).
Proof.
  induction fuel as [|fuel IH]; intros src dst buffer sn.
  - simpl. exists [], (content src). rewrite app_nil_r.
    repeat split; auto; discriminate.
  - cbn [copyBodyChunked_loop].
    pose proof (parseChunkSize_trace src []) as P.
    destruct (parseChunkSize src []) as [[src1 b1] [n out]].
    destruct P as (line & Hline & Hb).
    destruct out as [[e|]| |];
      try (exists [], (content src); rewrite app_nil_r;
           repeat split; auto; discriminate).
    specialize (Hb eq_refl). simpl in Hb. subst b1.
    destruct (Write line dst) as [[nw werr] dst1] eqn:HW.
    apply Write_spec in HW. destruct HW as (Hwb & Hnw & Hwok & _).
    destruct werr as [e|].
    + exists (firstn nw line), (skipn nw line ++ content src1).
      rewrite Hline, app_assoc, firstn_skipn.
      repeat split; auto; discriminate.
    + rewrite (Hwok eq_refl), firstn_all in Hwb.
      pose proof (copyBodyFixedSize_loop_trace (S (length (content src1)))
                    src1 dst1 (wrap_int (n + Z.of_nat (length strCRLF)))
                    (sniff_Body line sn)) as F.
      fold (copyBodyFixedSize src1 dst1
              (wrap_int (n + Z.of_nat (length strCRLF)))
              (sniff_Body line sn)) in F.
      destruct (copyBodyFixedSize src1 dst1
                  (wrap_int (n + Z.of_nat (length strCRLF)))
                  (sniff_Body line sn)) as [[[src2 dst2] sn2] out2].
      destruct F as (c & ex & t & Hc & Hw & Ht & Hs & Hok & _).
      assert (Hstop : out2 <> Return None ->
                exists w t0 : bytes,
                  wbytes dst2 = wbytes dst ++ w /\
                  content src = w ++ t0 /\
                  (out2 = Return None ->
                   content src2 = t0 /\
                   sniffer_body sn2 = sniffer_body sn ++ w)).
      { intros Hne. exists (line ++ c ++ ex), t.
        rewrite Hw, Hwb, Hline, Hc, Ht, <- !app_assoc.
        repeat split; auto; congruence. }
      destruct out2 as [[e|]| |]; try (apply Hstop; discriminate).
      assert (Hex : ex = []) by (apply Hok; left; reflexivity). subst ex.
      rewrite app_nil_r in Hw. rewrite sniffer_body_Body in Hs.
      destruct (n =? 0)%Z.
      * exists (line ++ c), (content src2).
        rewrite Hw, Hwb, Hline, Hc, Hs, <- !app_assoc. auto.
      * specialize (IH src2 dst2 line sn2).
        destruct (copyBodyChunked_loop fuel src2 dst2 line sn2)
          as [[[src' dst'] sn'] out].
        destruct IH as (w & t' & Hw' & Hc' & Hok').
        exists (line ++ c ++ w), t'.
        rewrite Hw', Hw, Hwb, Hline, Hc, Hc', <- !app_assoc.
        split; [reflexivity|]. split; [reflexivity|].
        intros Ho. destruct (Hok' Ho) as [H1 H2].
        rewrite H1, H2, Hs, <- !app_assoc. auto.
Qed.

Lemma copyBodyChunked_trace src dst buffer sn :
  let '((src', dst', sn'), out) := copyBodyChunked src dst buffer sn in
  out <> OutOfFuel /\
  exists w t : bytes,
    wbytes dst' = wbytes dst ++ w /\
    content src = w ++ t /\
    (out = Return None ->
     content src' = t /\ sniffer_body sn' = sniffer_body sn ++ w).
Proof.
  pose proof (copyBodyChunked_total src dst buffer sn) as T.
  pose proof (copyBodyChunked_loop_trace (S (length (content src)))
                src dst buffer sn) as L.
  unfold copyBodyChunked in *.
  destruct (copyBodyChunked_loop (S (length (content src))) src dst buffer sn)
    as [[[src' dst'] sn'] out].
  split; [exact T | exact L].
Qed.

(** X6: whatever the input and whatever the destination,
    [copyBodyChunked] comes to an end, and the bytes it has written are a
    prefix of the bytes the source held: it writes no byte it has not read,
    and none out of order.  When it reports success the written bytes are
    exactly the bytes that left the source, and the sniffer has seen the
    same bytes. *)
Theorem copyBodyChunked_writes_what_it_reads src dst buffer sn :
  let '((src', dst', sn'), out) := copyBodyChunked src dst buffer sn in
  out <> OutOfFuel /\
  exists w t : bytes,
    wbytes dst' = wbytes dst ++ w /\
    content src = w ++ t /\
    (out = Return None ->
     content src' = t /\ sniffer_body sn' = sniffer_body sn ++ w).
Proof. exact (copyBodyChunked_trace src dst buffer sn). Qed.

(** X7: a chunked body that stops inside a chunk (after well-formed
    chunks and a size line, fewer than [size + 2] bytes follow): every byte
    that arrived is forwarded, and the copier returns the plain [io.EOF] of
    the fixed-size loop. *)
Theorem copyBodyChunked_truncated cs ds data src dst buffer sn :
  Forall data_chunk cs -> size_line ds ->
  (0 <= hexval ds <= MaxInt64 - 2)%Z ->
  (Z.of_nat (length data) < hexval ds + 2)%Z ->
  content src = flat_map chunk_wire cs ++ ds ++ strCRLF ++ data ->
  no_stall src -> wroom dst = None ->
  exists src' dst' sn',
    copyBodyChunked src dst buffer sn = ((src', dst', sn'), Return (Some EOF)) /\
    content src' = [] /\
    wbytes dst' = wbytes dst ++ content src /\
    sniffer_body sn' = sniffer_body sn ++ content src.
Proof.
  intros Hcs Hline Hsize Hshort Hr Hns Hw. unfold copyBodyChunked.
  destruct (copyBodyChunked_fuel cs _ src Hr) as (k & ->).
  destruct (@copyBodyChunked_prefix cs _ (S k) src dst buffer sn Hcs Hr Hns Hw)
    as (src1 & dst1 & buf1 & sn1 & -> & Hc1 & Hns1 & Hw1 & Hroom1 & Hs1).
  cbn [copyBodyChunked_loop].
  destruct (@parseChunkSize_line ds src1 data Hline Hc1 Hns1)
    as (r1 & -> & Hd & Hnsd).
  rewrite Write_open by exact Hroom1.
  change (Z.of_nat (length strCRLF)) with 2%Z.
  rewrite wrap_int_small by lia.
  set (w1 := {| wbytes := wbytes dst1 ++ ds ++ strCRLF; wroom := None |}).
  destruct (@copyBodyFixedSize_drains r1 w1
              (sniff_Body (ds ++ strCRLF) sn1) (hexval ds + 2)%Z
              ltac:(rewrite Hd; exact Hshort) Hnsd eq_refl)
    as (src' & dst' & sn' & -> & Hc' & Hw' & Hs').
  exists src', dst', sn'. split; [reflexivity|]. split; [exact Hc'|].
  rewrite Hw', Hs', sniffer_body_Body, Hd. unfold w1. cbn [wbytes].
  rewrite Hw1, Hs1, Hr, <- !app_assoc. auto.
Qed.

Lemma cut_src_no_stall : no_stall cut_src.
Proof. repeat (apply Forall_cons || apply Forall_nil); discriminate. Defined.

Lemma cut_chunks_data : Forall data_chunk cut_chunks.
Proof.
  repeat (apply Forall_cons || apply Forall_nil);
    (split; [split; [discriminate | reflexivity]
            | split; [vm_compute; split; [reflexivity | discriminate]
                     | reflexivity]]).
Defined.

Lemma copyBodyChunked_truncated_witness :
  Forall data_chunk cut_chunks /\ no_stall cut_src /\
  exists src' dst' sn',
    copyBodyChunked cut_src open_dst [] []
      = ((src', dst', sn'), Return (Some EOF)) /\
    content src' = [] /\
    wbytes dst' = wbytes open_dst ++ content cut_src /\
    sniffer_body sn' = sniffer_body [] ++ content cut_src.
Proof.
  split; [exact cut_chunks_data|]. split; [exact cut_src_no_stall|].
  refine (@copyBodyChunked_truncated cut_chunks (lit "6") (lit " wo")
            cut_src open_dst [] [] cut_chunks_data _ _ _ eq_refl
            cut_src_no_stall eq_refl).
  - split; [discriminate | reflexivity].
  - vm_compute. split; discriminate.
  - reflexivity.
Defined.

(** ** [copyBody] in every mode *)

Lemma copyBodyFixedSize_trace src dst N sn :
  let '((src', dst', sn'), out) := copyBodyFixedSize src dst N sn in
  exists consumed extra t : bytes,
    content src = consumed ++ content src' /\
    wbytes dst' = wbytes dst ++ consumed ++ extra /\
    content src' = extra ++ t /\
    sniffer_body sn' = sniffer_body sn ++ consumed /\
    (out = Return None \/ out = Return (Some EOF) -> extra = []).
Proof.
  pose proof (copyBodyFixedSize_loop_trace (S (length (content src)))
                src dst N sn) as T.
  unfold copyBodyFixedSize.
  destruct (copyBodyFixedSize_loop (S (length (content src))) src dst N sn)
    as [[[src' dst'] sn'] out].
  destruct T as (c & ex & t & H1 & H2 & H3 & H4 & H5 & _).
  exists c, ex, t. auto.
Qed.

Lemma copyBody_trace src dst h sn :
  let '((src', dst', sn'), out) := copyBody src dst h sn in
  exists w t : bytes,
    wbytes dst' = wbytes dst ++ w /\
    content src = w ++ t /\
    (out = Return None ->
     content src' = t /\ sniffer_body sn' = sniffer_body sn ++ w).
Proof.
  unfold copyBody.
  destruct (ContentLength h >? 0)%Z.
  - pose proof (copyBodyFixedSize_trace src dst (ContentLength h) sn) as T.
    destruct (copyBodyFixedSize src dst (ContentLength h) sn)
      as [[[src' dst'] sn'] out].
    destruct T as (c & ex & t & Hc & Hw & Ht & Hs & Hok).
    exists (c ++ ex), t. rewrite Hw, Hc, Ht, <- !app_assoc.
    split; [reflexivity|]. split; [reflexivity|].
    intros Ho. rewrite (Hok (or_introl Ho)).
    rewrite app_nil_r. split; [reflexivity | exact Hs].
  - destruct (IsBodyChunked h).
    + pose proof (copyBodyChunked_trace src dst [] sn) as T.
      destruct (copyBodyChunked src dst [] sn) as [[[src' dst'] sn'] out].
      apply T.
    + destruct (IsBodyIdentity h).
      * unfold copyBodyIdentity.
        pose proof (copyBodyFixedSize_trace src dst MaxInt64 sn) as T.
        destruct (copyBodyFixedSize src dst MaxInt64 sn)
          as [[[src' dst'] sn'] out].
        destruct T as (c & ex & t & Hc & Hw & Ht & Hs & Hok).
        assert (G : forall out',
                   (out' = Return None ->
                    out = Return None \/ out = Return (Some EOF)) ->
                   exists w t0 : bytes,
                     wbytes dst' = wbytes dst ++ w /\
                     content src = w ++ t0 /\
                     (out' = Return None ->
                      content src' = t0 /\
                      sniffer_body sn' = sniffer_body sn ++ w)).
        { intros out' Himp. exists (c ++ ex), t.
          rewrite Hw, Hc, Ht, <- !app_assoc.
          split; [reflexivity|]. split; [reflexivity|].
          intros Ho. rewrite (Hok (Himp Ho)). rewrite app_nil_r.
          split; [reflexivity | exact Hs]. }
        destruct out as [[e|]| |].
        -- destruct e; apply G; intros Ho; try discriminate Ho; auto.
        -- apply G. auto.
        -- apply G. intros Ho; discriminate Ho.
        -- apply G. intros Ho; discriminate Ho.
      * exists [], (content src). rewrite !app_nil_r. auto.
Qed.

(** X8: in each of its modes, when [copyBody] reports success the
    destination has received exactly the bytes that were removed from the
    source, in order, and the sniffer has been handed the same bytes as
    body; whatever it reports, it has written no byte that the source did
    not hold at that place. *)
Theorem copyBody_forwards_verbatim src dst h sn :
  let '((src', dst', sn'), out) := copyBody src dst h sn in
  exists w t : bytes,
    wbytes dst' = wbytes dst ++ w /\
    content src = w ++ t /\
    (out = Return None ->
     content src' = t /\ sniffer_body sn' = sniffer_body sn ++ w).
Proof. exact (copyBody_trace src dst h sn). Qed.

(** * Further properties of the Request and Response objects *)

Lemma sniffer_body_app s1 s2 :
  sniffer_body (s1 ++ s2) = sniffer_body s1 ++ sniffer_body s2.
Proof.
  induction s1 as [|x s1 IH]; simpl; [reflexivity|].
  destruct x; rewrite IH; try reflexivity. apply app_assoc.
Qed.

Section MoreObjectFacts.

Context {HP : HeaderPackage}.

(** X9: a [Response] is bound by [InitWithWriter] exactly when it is not
    bound yet and the writer is not nil; a rejected call changes nothing.
    [Reset] unbinds it and keeps its sniffer, so a response that went
    through [ReleaseResponse] comes back from [AcquireResponse] unbound and
    can be bound again. *)
Theorem InitWithWriter_binds_once :
  (forall r w sn,
      (snd (InitWithWriter r w sn) = None <-> writer r = None /\ w <> None) /\
      (snd (InitWithWriter r w sn) <> None -> fst (InitWithWriter r w sn) = r) /\
      (snd (InitWithWriter r w sn) = None ->
       writer (fst (InitWithWriter r w sn)) = w /\
       resp_sniffer (fst (InitWithWriter r w sn)) = sn /\
       respLine (fst (InitWithWriter r w sn)) = respLine r /\
       resp_header (fst (InitWithWriter r w sn)) = resp_header r)) /\
  (forall r pool w sn,
      let '(r', pool') := AcquireResponse (ReleaseResponse r pool) in
      pool' = pool /\ writer r' = None /\
      resp_sniffer r' = resp_sniffer r /\
      snd (InitWithWriter r' (Some w) sn) = None) /\
  (forall r pool,
      responses_unbound pool -> responses_unbound (ReleaseResponse r pool)) /\
  (forall pool,
      responses_unbound pool ->
      writer (fst (AcquireResponse pool)) = None /\
      responses_unbound (snd (AcquireResponse pool))).
Proof.
  split; [|split; [|split]].
  - intros r w sn. unfold InitWithWriter.
    destruct (writer r) as [w0|] eqn:Hw.
    + simpl. repeat split; intros; try discriminate;
        intuition (try discriminate; congruence).
    + destruct w as [w|]; simpl.
      * repeat split; intros; try discriminate;
          intuition (try discriminate; congruence).
      * repeat split; intros; try discriminate;
          intuition (try discriminate; congruence).
  - intros r pool w sn. simpl. repeat split.
  - intros r pool H. constructor; [reflexivity | exact H].
  - intros pool H. destruct pool as [|r pool]; simpl.
    + split; [reflexivity | constructor].
    + inversion H; subst. auto.
Qed.

(** X10: when [Response.ReadFrom] reports success, the bound writer has
    received the response line, then the raw header block, then the body,
    the body being exactly the bytes that left the reader after the header
    block; the sniffer has been handed the same body, and the response
    holds the header that was parsed.  On a response that was never bound
    it cannot succeed. *)
Theorem Response_ReadFrom_success r rd r' rd' :
  Response_ReadFrom r rd = (r', rd', Return None) ->
  exists w w' line rd1 h rd2 block body,
    writer r = Some w /\ writer r' = Some w' /\
    ResponseLine_Parse (respLine r) rd = (line, rd1, None) /\
    ParseHeaderFields (resp_header r) rd1 = (h, rd2, block, None) /\
    wbytes w' = wbytes w ++ GetResponseLine line ++ block ++ body /\
    content rd2 = body ++ content rd' /\
    sniffer_body (resp_sniffer r') = sniffer_body (resp_sniffer r) ++ body /\
    respLine r' = line /\ resp_header r' = h.
Proof.
  unfold Response_ReadFrom.
  destruct (ResponseLine_Parse (respLine r) rd) as [[line rd1] [e|]] eqn:Hline;
    [intros H; inversion H|].
  destruct (writer r) as [w|] eqn:Hw; [|intros H; inversion H].
  destruct (Write (GetResponseLine line) w) as [[n1 e1] w1] eqn:HW1.
  pose proof (Write_spec _ _ HW1) as (Hwb1 & _ & Hok1 & _).
  destruct e1 as [e1|]; [intros H; inversion H|].
  rewrite (Hok1 eq_refl), firstn_all in Hwb1.
  destruct (ParseHeaderFields (resp_header r) rd1)
    as [[[h rd2] block] [e2|]] eqn:HH; [intros H; inversion H|].
  destruct (Write block w1) as [[n2 e3] w2] eqn:HW2.
  pose proof (Write_spec _ _ HW2) as (Hwb2 & _ & Hok2 & _).
  destruct e3 as [e3|]; [intros H; inversion H|].
  rewrite (Hok2 eq_refl), firstn_all in Hwb2.
  pose proof (copyBody_trace rd2 w2 h
                ((resp_sniffer r ++ [SRespLine (GetResponseLine line)])
                 ++ [SHeader block])) as B.
  destruct (copyBody rd2 w2 h
              ((resp_sniffer r ++ [SRespLine (GetResponseLine line)])
               ++ [SHeader block])) as [[[rd3 w3] sn3] out].
  destruct B as (body & t & Hwb3 & Hc & Hok).
  intros H; inversion H; subst. destruct (Hok eq_refl) as [Ht Hs].
  exists w, w3, line, rd1, h, rd2, block, body. simpl.
  rewrite Hwb3, Hwb2, Hwb1, Hc, Ht, Hs, !sniffer_body_app, <- !app_assoc.
  simpl. rewrite ?app_nil_r. repeat split; try reflexivity; assumption.
Qed.

(** X11: [Request.WriteTo] on a request that is not bound fails with
    "Empty request, nothing to write" and leaves the writer untouched.
    When it reports success the writer has received the rebuilt request
    line, then the raw header block, then the body, the body being exactly
    the bytes that left the bound reader after the header block; the
    request stays bound to the advanced reader, keeps its TLS settings, and
    [ConnectionClose] now reports the flag of the header just parsed. *)
Theorem Request_WriteTo_success r w :
  (reader r = None ->
   Request_WriteTo r w
   = (r, w, Return (Some (ErrNew "Empty request, nothing to write")))) /\
  (forall r' w',
      Request_WriteTo r w = (r', w', Return None) ->
      exists rd h rd2 block body rd3,
        reader r = Some rd /\
        ParseHeaderFields (req_header r) rd = (h, rd2, block, None) /\
        wbytes w' = wbytes w ++ RebuildRequestLine (reqLine r) ++ block ++ body /\
        content rd2 = body ++ content rd3 /\
        reader r' = Some rd3 /\
        sniffer_body (req_sniffer r') = sniffer_body (req_sniffer r) ++ body /\
        Request_ConnectionClose r' = IsConnectionClose h /\
        reqLine r' = reqLine r /\ isTLS r' = isTLS r /\
        tlsServerName r' = tlsServerName r).
Proof.
  unfold Request_WriteTo. split.
  - intros ->. reflexivity.
  - intros r' w'.
    destruct (reader r) as [rd|] eqn:Hrd; [|intros H; inversion H].
    destruct (Write (RebuildRequestLine (reqLine r)) w) as [[n1 e1] w1] eqn:HW1.
    pose proof (Write_spec _ _ HW1) as (Hwb1 & _ & Hok1 & _).
    destruct e1 as [e1|]; [intros H; inversion H|].
    rewrite (Hok1 eq_refl), firstn_all in Hwb1.
    destruct (ParseHeaderFields (req_header r) rd)
      as [[[h rd2] block] [e2|]] eqn:HH; [intros H; inversion H|].
    destruct (Write block w1) as [[n2 e3] w2] eqn:HW2.
    pose proof (Write_spec _ _ HW2) as (Hwb2 & _ & Hok2 & _).
    destruct e3 as [e3|]; [intros H; inversion H|].
    rewrite (Hok2 eq_refl), firstn_all in Hwb2.
    pose proof (copyBody_trace rd2 w2 h
                  ((req_sniffer r ++ [SReqLine (RebuildRequestLine (reqLine r))])
                   ++ [SHeader block])) as B.
    destruct (copyBody rd2 w2 h
                ((req_sniffer r ++ [SReqLine (RebuildRequestLine (reqLine r))])
                 ++ [SHeader block])) as [[[rd3 w3] sn3] out].
    destruct B as (body & t & Hwb3 & Hc & Hok).
    intros H; inversion H; subst. destruct (Hok eq_refl) as [Ht Hs].
    exists rd, h, rd2, block, body, rd3. unfold Request_ConnectionClose. simpl.
    rewrite Hwb3, Hwb2, Hwb1, Hc, Ht, Hs, !sniffer_body_app, <- !app_assoc.
    simpl. rewrite ?app_nil_r. repeat split; try reflexivity; assumption.
Qed.

End MoreObjectFacts.

Lemma InitWithWriter_binds_once_witness :
  (writer (Response_zero (HP := sample_package)) = None /\
   Some open_dst <> None) /\
  snd (InitWithWriter (Response_zero (HP := sample_package))
                      (Some open_dst) []) = None.
Proof.
  assert (H : writer (Response_zero (HP := sample_package)) = None /\
              Some open_dst <> None)
    by (split; [reflexivity | discriminate]).
  split; [exact H|].
  exact (proj2 (proj1 (proj1 (@InitWithWriter_binds_once sample_package)
                         Response_zero (Some open_dst) [])) H).
Defined.

Lemma Response_ReadFrom_success_witness :
  exists r' rd',
    Response_ReadFrom open_response e1_answer = (r', rd', Return None) /\
    exists w w' line rd1 h rd2 block body,
      writer open_response = Some w /\ writer r' = Some w' /\
      ResponseLine_Parse (respLine open_response) e1_answer = (line, rd1, None) /\
      ParseHeaderFields (resp_header open_response) rd1 = (h, rd2, block, None) /\
      wbytes w' = wbytes w ++ GetResponseLine line ++ block ++ body /\
      content rd2 = body ++ content rd' /\
      sniffer_body (resp_sniffer r')
        = sniffer_body (resp_sniffer open_response) ++ body /\
      respLine r' = line /\ resp_header r' = h.
Proof.
  assert (H : snd (Response_ReadFrom open_response e1_answer) = Return None)
    by (vm_compute; reflexivity).
  destruct (Response_ReadFrom open_response e1_answer) as [[r' rd'] out] eqn:E.
  cbn [snd] in H. subst out. exists r', rd'. split; [reflexivity|].
  exact (@Response_ReadFrom_success sample_package open_response e1_answer
           r' rd' E).
Defined.

Lemma Request_WriteTo_success_witness :
  exists r' w',
    Request_WriteTo e1_request open_dst = (r', w', Return None) /\
    exists rd h rd2 block body rd3,
      reader e1_request = Some rd /\
      ParseHeaderFields (req_header e1_request) rd = (h, rd2, block, None) /\
      wbytes w'
      = wbytes open_dst ++ RebuildRequestLine (reqLine e1_request)
        ++ block ++ body /\
      content rd2 = body ++ content rd3 /\
      reader r' = Some rd3 /\
      sniffer_body (req_sniffer r')
        = sniffer_body (req_sniffer e1_request) ++ body /\
      Request_ConnectionClose r' = IsConnectionClose h /\
      reqLine r' = reqLine e1_request /\ isTLS r' = isTLS e1_request /\
      tlsServerName r' = tlsServerName e1_request.
Proof.
  assert (H : snd (Request_WriteTo e1_request open_dst) = Return None)
    by (vm_compute; reflexivity).
  destruct (Request_WriteTo e1_request open_dst) as [[r' w'] out] eqn:E.
  cbn [snd] in H. subst out. exists r', w'. split; [reflexivity|].
  exact (proj2 (@Request_WriteTo_success sample_package e1_request open_dst)
           r' w' E).
Defined.

(** * Further properties of the server *)

(** ** [writeFastError] *)

Lemma Write_cases p w n e w' :
  Write p w = (n, e, w') ->
  wbytes w' = wbytes w ++ firstn n p /\
  ((e = None /\ n = length p) \/ (e <> None /\ n < length p)).
Proof.
  unfold Write. destruct (wroom w) as [k|].
  - destruct (length p <=? k) eqn:E; intros H; inversion H; subst; simpl.
    + rewrite firstn_all. auto.
    + apply Nat.leb_gt in E. split; [reflexivity|].
      right. split; [discriminate | exact E].
  - intros H; inversion H; subst; simpl. rewrite firstn_all. auto.
Qed.

Lemma skipn_not_nil (n : nat) (p : bytes) : n < length p -> skipn n p <> [].
Proof.
  intros H E. apply (f_equal (@length _)) in E.
  rewrite length_skipn in E. simpl in E. lia.
Qed.


(** X12: whatever the client socket does, [writeFastError] only appends to
    what the socket has received, and what it appends is a prefix of the one
    answer [status line, Connection: close, Date, Content-Type,
    Content-Length, empty line, message]: it reports no error exactly when
    the whole answer went out, and it neither reads from the socket nor
    closes it. *)
Theorem writeFastError_prefix date c statusCode msg :
  let '(c', err) := writeFastError date c statusCode msg in
  c_in c' = c_in c /\ c_closed c' = c_closed c /\
  exists w t : bytes,
    wbytes (c_out c') = wbytes (c_out c) ++ w /\
    fast_error_response date statusCode msg = w ++ t /\
    (err = None <-> t = []).
Proof.
  unfold writeFastError, Conn_Write, fast_error_response.
  set (rest := lit "Connection: close" ++ _).
  destruct (Write (StatusLine statusCode) (c_out c)) as [[n1 e1] w1] eqn:H1.
  destruct (Write_cases _ _ H1) as [Hb1 [[-> ->]|[He1 Hn1]]].
  - cbn [c_out c_in c_closed]. rewrite firstn_all in Hb1.
    destruct (Write rest w1) as [[n2 e2] w2] eqn:H2.
    destruct (Write_cases _ _ H2) as [Hb2 [[-> ->]|[He2 Hn2]]];
      cbn [c_out c_in c_closed]; split; [reflexivity| |reflexivity|];
      (split; [reflexivity|]).
    + exists (StatusLine statusCode ++ rest), [].
      rewrite Hb2, Hb1, firstn_all, app_nil_r, <- app_assoc.
      repeat split; reflexivity.
    + exists (StatusLine statusCode ++ firstn n2 rest), (skipn n2 rest).
      rewrite Hb2, Hb1, <- !app_assoc, firstn_skipn.
      split; [reflexivity|]. split; [reflexivity|].
      split; [intros E; contradiction | intros E].
      exfalso. exact (skipn_not_nil _ Hn2 E).
  - destruct e1 as [e1|]; [|contradiction].
    cbn [c_out c_in c_closed]. split; [reflexivity|]. split; [reflexivity|].
    exists (firstn n1 (StatusLine statusCode)),
           (skipn n1 (StatusLine statusCode) ++ rest).
    rewrite Hb1, app_assoc, firstn_skipn.
    split; [reflexivity|]. split; [reflexivity|].
    split; [discriminate | intros E].
    apply app_eq_nil in E. exfalso. exact (skipn_not_nil _ Hn1 (proj1 E)).
Qed.

(** ** The accept loop *)






(** ** [Proxy.init] *)

Section ProxyInitFacts.

Variables BufioPoolT LoggerT SnifferPoolT CertT : Type.
Variable DefaultMitmCA : option CertT.

(** X14: [init] succeeds exactly when the logger, the bufio pool and the
    sniffer pool are all present; a missing logger is reported first.  When
    it fails the proxy is unchanged and [Serve] returns that error without
    accepting anything.  When it succeeds the client has a bufio pool (its
    own if it had one), the MITM certificate is the given one or else the
    default, the three mandatory fields are untouched, and a second [init]
    changes nothing more. *)
Theorem Proxy_init_spec (p : Proxy BufioPoolT LoggerT SnifferPoolT CertT) :
  (snd (Proxy_init DefaultMitmCA p) = None <->
   ProxyLogger p <> None /\ BufioPool p <> None /\ snifferPool p <> None) /\
  (ProxyLogger p = None ->
   snd (Proxy_init DefaultMitmCA p) = Some (ErrNew "nil ProxyLogger provided")) /\
  (snd (Proxy_init DefaultMitmCA p) <> None ->
   fst (Proxy_init DefaultMitmCA p) = p /\
   forall accepts,
     Proxy_Serve DefaultMitmCA p accepts = (p, [], Some (snd (Proxy_init DefaultMitmCA p)))) /\
  (snd (Proxy_init DefaultMitmCA p) = None ->
   let p' := fst (Proxy_init DefaultMitmCA p) in
   Client_BufioPool p' <> None /\
   (Client_BufioPool p <> None -> Client_BufioPool p' = Client_BufioPool p) /\
   (Client_BufioPool p = None -> Client_BufioPool p' = BufioPool p) /\
   Handler_MitmCACert p'
   = match Handler_MitmCACert p with
     | Some c => Some c
     | None => DefaultMitmCA
     end /\
   BufioPool p' = BufioPool p /\ ProxyLogger p' = ProxyLogger p /\
   snifferPool p' = snifferPool p /\
   Proxy_init DefaultMitmCA p' = (p', None) /\
   forall accepts,
     Proxy_Serve DefaultMitmCA p accepts
     = (p', fst (Serve accepts), snd (Serve accepts))).
Proof.
  unfold Proxy_Serve, Proxy_init.
  destruct p as [bp cbp lg sp crt]; cbn [ProxyLogger BufioPool snifferPool
    Client_BufioPool Handler_MitmCACert].
  destruct lg as [lg|]; [destruct bp as [bp|]; [destruct sp as [sp|]|]|];
    cbn [fst snd].
  2-4: (split; [split; [discriminate | intros (A & B & C); congruence]|]);
       (split; [try reflexivity; try discriminate|]);
       (split; [intros _; split; [reflexivity | intros; reflexivity]
               | discriminate]).
  split; [split; [intros _; repeat split; discriminate | reflexivity]|].
  split; [discriminate|]. split; [intros H; congruence|].
  intros _. cbn [ProxyLogger BufioPool snifferPool Client_BufioPool
                   Handler_MitmCACert].
  split; [destruct cbp; discriminate|].
  split; [destruct cbp; [reflexivity | congruence]|].
  split; [intros ->; reflexivity|].
  split; [reflexivity|]. split; [reflexivity|]. split; [reflexivity|].
  split; [reflexivity|]. split.
  - destruct cbp, crt; try reflexivity; destruct DefaultMitmCA; reflexivity.
  - intros accepts. destruct (Serve accepts). reflexivity.
Qed.

End ProxyInitFacts.

Lemma Proxy_init_spec_witness :
  snd (Proxy_init None plain_proxy) = None /\
  Client_BufioPool (fst (Proxy_init None plain_proxy)) = BufioPool plain_proxy.
Proof.
  assert (H : snd (Proxy_init None plain_proxy) = None) by reflexivity.
  split; [exact H|].
  exact (proj1 (proj2 (proj2 (proj2 (proj2 (proj2 (Proxy_init_spec None plain_proxy))) H)))
           eq_refl).
Defined.

(** ** [serveConn] *)

Section ServeConnFacts.

Context {HP : HeaderPackage}.

Variable handleHTTPConns :
  Conn -> Request -> Sniffer -> Conn * Request * option error.
Variable handleHTTPSConns :
  Conn -> string -> Sniffer -> Conn * option error.




End ServeConnFacts.


(** ** The CONNECT handlers on a socket that may fail *)

Lemma WriteWithValidation_trace c p :
  let '(c', err) := WriteWithValidation c p in
  c_in c' = c_in c /\ c_closed c' = c_closed c /\
  exists w t : bytes,
    wbytes (c_out c') = wbytes (c_out c) ++ w /\ p = w ++ t /\
    (err = None <-> t = []).
Proof.
  unfold WriteWithValidation, Conn_Write.
  destruct (Write p (c_out c)) as [[n e] w1] eqn:H.
  destruct (Write_cases _ _ H) as [Hb [[-> ->]|[He Hn]]].
  - rewrite Nat.eqb_refl. cbn [c_in c_out c_closed].
    split; [reflexivity|]. split; [reflexivity|].
    exists p, []. rewrite Hb, firstn_all, app_nil_r. repeat split.
  - destruct e as [e|]; [|contradiction]. cbn [c_in c_out c_closed].
    split; [reflexivity|]. split; [reflexivity|].
    exists (firstn n p), (skipn n p). rewrite Hb, firstn_skipn.
    split; [reflexivity|]. split; [reflexivity|].
    split; [discriminate | intros E].
    exfalso. exact (skipn_not_nil _ Hn E).
Qed.

(** X16: [tunnelConnect] up to the start of the copiers, whatever the
    client socket does.  A failed dial is reported with the dial error
    whether or not the 501 line could be written, and only bytes of that
    line reach the client.  After a successful dial the copiers are started
    only once the whole 200 line has been written, with the dialed
    connection untouched, both errors unset and the counter at 2; when the
    200 line cannot be written in full, the handler returns the handshake
    error and copies nothing. *)
Theorem tunnelConnect_start_any_socket dialed conn host :
  match tunnelConnect_start dialed conn host with
  | Tunnel_returned conn' e =>
      c_in conn' = c_in conn /\ c_closed conn' = c_closed conn /\
      exists w t : bytes,
        wbytes (c_out conn') = wbytes (c_out conn) ++ w /\
        ((exists err,
             dialed = inl err /\
             e = errorWrapper ("error occurred when dialing to host" ++ host)
                              err /\
             statusBadGateway = w ++ t) \/
         (exists tunnelConn err,
             dialed = inr tunnelConn /\
             e = errorWrapper "error occurred when handshaking with client"
                              err /\
             statusOK = w ++ t /\ t <> []))
  | Tunnel_splicing s =>
      dialed = inr (s_origin s) /\
      c_in (s_client s) = c_in conn /\
      c_closed (s_client s) = c_closed conn /\
      wbytes (c_out (s_client s)) = wbytes (c_out conn) ++ statusOK /\
      s_err1 s = None /\ s_err2 s = None /\ s_wg s = 2
  end.
Proof.
  unfold tunnelConnect_start, sendHTTPSProxyStatusBadGateway,
    sendHTTPSProxyStatusOK.
  destruct dialed as [err|tunnelConn].
  - pose proof (WriteWithValidation_trace conn statusBadGateway) as T.
    destruct (WriteWithValidation conn statusBadGateway) as [c1 e1].
    destruct T as (Hin & Hcl & w & t & Hw & Hp & _).
    split; [exact Hin|]. split; [exact Hcl|].
    exists w, t. split; [exact Hw|]. left. exists err. auto.
  - pose proof (WriteWithValidation_trace conn statusOK) as T.
    destruct (WriteWithValidation conn statusOK) as [c1 [e1|]].
    + destruct T as (Hin & Hcl & w & t & Hw & Hp & Hiff).
      split; [exact Hin|]. split; [exact Hcl|].
      exists w, t. split; [exact Hw|]. right. exists tunnelConn, e1.
      repeat split; try assumption.
      intros E. apply Hiff in E. discriminate E.
    + destruct T as (Hin & Hcl & w & t & Hw & Hp & Hiff).
      cbn [s_origin s_client s_err1 s_err2 s_wg].
      rewrite (proj1 Hiff eq_refl), app_nil_r in Hp. subst w.
      repeat split; assumption.
Qed.

Section MitmFacts.

Context {HP : HeaderPackage}.

Variable Certificate : Type.
Variable SplitHostPort : string -> error + (string * string).
Variable GenCert : list string -> error + Certificate.
Variable tls_Handshake : Conn -> Certificate -> string * (error + Conn).
Variable client_Do : Request -> Response -> Request * Response * option error.


End MitmFacts.

(** ** [handleHTTPConns] *)

Section HTTPHandlerFacts.

Context {HP : HeaderPackage}.

Variable URLProxy : bytes -> option SuperProxy.
Variable RawURI : RequestLine -> bytes.
Variable SetProxy : Request -> option SuperProxy -> Request.
Variable client_Do : Request -> Response -> Request * Response * option error.

(** X18: [handleHTTPConns] on a pool of unbound responses.  Binding the
    response cannot fail, so [client.Do] is always called, with the request
    set to the proxy chosen for its raw URI and a response bound to the
    writer on the client connection and to the sniffer; what the handler
    returns is exactly what [client.Do] returns.  The connection is neither
    read nor closed, it receives what the response's writer holds, and the
    response goes back to the pool reset, so the pool holds unbound
    responses again. *)
Theorem handleHTTPConns_spec c req sniffer rpool :
  responses_unbound rpool ->
  let req1 := SetProxy req (URLProxy (RawURI (reqLine req))) in
  let r0 := fst (AcquireResponse rpool) in
  let resp0 := {| writer := Some (c_out c); resp_sniffer := sniffer;
                  respLine := respLine r0; resp_header := resp_header r0 |} in
  let '(req2, resp2, derr) := client_Do req1 resp0 in
  let '(c', req', rpool', err) :=
    handleHTTPConns URLProxy RawURI SetProxy client_Do c req sniffer rpool in
  err = derr /\ req' = req2 /\
  c_in c' = c_in c /\ c_closed c' = c_closed c /\
  (forall w, writer resp2 = Some w -> c_out c' = w) /\
  rpool' = Response_Reset resp2 :: tl rpool /\
  responses_unbound rpool'.
Proof.
  intros Hu req1 r0 resp0. unfold handleHTTPConns.
  assert (Hr0 : writer r0 = None /\ snd (AcquireResponse rpool) = tl rpool /\
                responses_unbound (tl rpool)).
  { subst r0. destruct rpool as [|x rp]; simpl.
    - repeat split. constructor.
    - inversion Hu; subst. auto. }
  destruct Hr0 as (Hw0 & Htl & Hutl).
  destruct (AcquireResponse rpool) as [r0' rp1]. cbn [fst snd] in *.
  subst r0 rp1. unfold InitWithWriter. rewrite Hw0.
  fold req1. change {| writer := Some (c_out c); resp_sniffer := sniffer;
                       respLine := respLine r0';
                       resp_header := resp_header r0' |} with resp0.
  destruct (client_Do req1 resp0) as [[req2 resp2] derr].
  split; [reflexivity|]. split; [reflexivity|].
  destruct (writer resp2) as [w|]; cbn [c_in c_closed c_out];
    (split; [reflexivity|]); (split; [reflexivity|]);
    (split; [intros w' Hw'; congruence|]);
    (split; [reflexivity|]);
    (constructor; [reflexivity | exact Hutl]).
Qed.

End HTTPHandlerFacts.

Lemma handleHTTPConns_spec_witness :
  responses_unbound (HP := sample_package) [] /\
  let req1 := e1_request in
  let r0 := fst (AcquireResponse (HP := sample_package) []) in
  let resp0 := {| writer := Some (c_out fresh_conn); resp_sniffer := [];
                  respLine := respLine r0; resp_header := resp_header r0 |} in
  let '(req2, resp2, derr) := sample_do req1 resp0 in
  let '(c', req', rpool', err) :=
    handleHTTPConns (fun _ => None) (fun _ => []) (fun r _ => r) sample_do
                    fresh_conn e1_request [] [] in
  err = derr /\ req' = req2 /\
  c_in c' = c_in fresh_conn /\ c_closed c' = c_closed fresh_conn /\
  (forall w, writer resp2 = Some w -> c_out c' = w) /\
  rpool' = Response_Reset resp2 :: tl [] /\
  responses_unbound rpool'.
Proof.
  split; [constructor|].
  exact (@handleHTTPConns_spec sample_package (fun _ => None) (fun _ => [])
           (fun r _ => r) sample_do fresh_conn e1_request [] []
           (Forall_nil _)).
Defined.

(** ** [NewSuperProxy] *)

Section SuperProxyFacts.

Variable base64 : string -> string.

(** X19: [NewSuperProxy] returns a proxy exactly when it returns no error,
    which is exactly when the host is not empty and the port is not 0; an
    empty host is reported before a zero port.  The proxy keeps the [ssl]
    flag and [host:port] with the port in decimal; it carries the
    [Proxy-Authorization: Basic] header line, closed by CRLF, on the base64
    form of [user:pass] exactly when both user and password are not empty,
    and an empty header otherwise, so a user name without password is
    dropped. *)
Theorem NewSuperProxy_spec host port ssl user pass :
  let '(s, err) := NewSuperProxy base64 host port ssl user pass in
  (err = None <-> host <> EmptyString /\ port <> 0) /\
  (s = None <-> err <> None) /\
  (host = EmptyString -> err = Some (ErrNew "nil host provided")) /\
  (forall p,
      s = Some p ->
      secure p = ssl /\
      hostWithPort p
      = (host ++ ":" ++ NilZero.string_of_uint (Nat.to_uint port))%string /\
      (proxyHeader p = EmptyString <->
       user = EmptyString \/ pass = EmptyString) /\
      (user <> EmptyString -> pass <> EmptyString ->
       proxyHeader p
       = ("Proxy-Authorization: Basic " ++ base64 (user ++ ":" ++ pass)
          ++ crlf_string)%string)).
Proof.
  unfold NewSuperProxy.
  destruct host as [|h host]; cbn [String.length Nat.eqb].
  { split; [split; [discriminate | intros [H _]; congruence]|].
    split; [split; [discriminate | reflexivity]|].
    split; [reflexivity | discriminate]. }
  destruct port as [|port]; cbn [Nat.eqb].
  { split; [split; [discriminate | intros [_ H]; congruence]|].
    split; [split; [discriminate | reflexivity]|].
    split; [discriminate | discriminate]. }
  split; [split; [intros _; split; discriminate | reflexivity]|].
  split; [split; [discriminate | intros H; congruence]|].
  split; [discriminate|].
  intros p Hp. inversion Hp; subst p; clear Hp.
  cbn [secure hostWithPort proxyHeader].
  split; [reflexivity|]. split; [reflexivity|].
  destruct user as [|u user], pass as [|q pass]; cbn [String.length Nat.ltb
    Nat.leb andb].
  - split; [split; auto | intros H; congruence].
  - split; [split; auto | intros H; congruence].
  - split; [split; auto | intros _ H; congruence].
  - split; [split; [discriminate | intros [H|H]; discriminate H]|].
    intros _ _. reflexivity.
Qed.

End SuperProxyFacts.
